(** * Elliptic-curve arithmetic and ElGamal over a prime field (ECC.py)

    A shallow embedding of the core of [ECC.py]: the modular arithmetic
    helpers ([inv], [egcd], [sqrt]), the class [EC] (points, validity,
    negation, addition, double-and-add multiplication, point order), the
    class [ElGamal] and the text/point codecs, followed by the properties
    the specification states about them.

    Python integers are [Z]; [%] and [divmod] are the floor operations
    [Z.modulo] and [Z.div] (they agree with Python for every non-zero
    divisor); a raised exception is the [Raise] outcome of [result]. *)

From Stdlib Require Import ZArith List Bool Lia String Ascii.
From Stdlib Require Import Zdivisibility Zmod.
From Stdlib Require NsatzTactic.
Import ListNotations.

#[local] Open Scope Z_scope.

(** ** Exceptions and the error monad *)

(** The exceptions the code can raise.  [OutOfFuel] is not a Python
    exception: it marks a [while] loop of the model that ran out of
    fuel, and the totality lemmas below show that it never occurs. *)
Inductive exn : Type :=
| AssertionError
| ZeroDivisionError
| Exception (msg : string)
| AttributeError
| ValueError
| OutOfFuel.

Inductive result (A : Type) : Type :=
| Ok (v : A)
| Raise (e : exn).

Arguments Ok {A} v.
Arguments Raise {A} e.

Definition bind {A B : Type} (m : result A) (k : A -> result B) : result B :=
  match m with
  | Ok v => k v
  | Raise e => Raise e
  end.

Notation "x <- m ;; k" := (bind m (fun x => k))
  (at level 61, m at next level, right associativity).
Notation "' pat <- m ;; k" := (bind m (fun x => match x with pat => k end))
  (at level 61, pat pattern, m at next level, right associativity).

(** [assert c] *)
Definition assert (c : bool) : result unit :=
  if c then Ok tt else Raise AssertionError.

(** [a % b] *)
Definition pymod (a b : Z) : result Z :=
  if b =? 0 then Raise ZeroDivisionError else Ok (a mod b).

(** [range(lo, hi)] *)
Definition range (lo hi : Z) : list Z :=
  map (fun k => lo + Z.of_nat k) (seq 0 (Z.to_nat (hi - lo))).

(** ** Modular arithmetic *)

(** The [while b > 0] loop of [egcd]; one unit of fuel per iteration. *)
Fixpoint egcd_loop (fuel : nat) (a b s0 s1 t0 t1 : Z) : result (Z * Z * Z) :=
  if 0 <? b then
    match fuel with
    | O => Raise OutOfFuel
    | S fuel' =>
        let '(q, r) := Z.div_eucl a b in
        egcd_loop fuel' b r s1 (s0 - q * s1) t1 (t0 - q * t1)
    end
  else Ok (s0, t0, a).

(** [egcd(a, b)]: returns [(s, t, gcd)].  After the first round the
    product of the two running values at least halves in every round, so
    [2 * log2 b + 3] rounds are enough ([egcd_total] below). *)
Definition egcd (a b : Z) : result (Z * Z * Z) :=
  egcd_loop (Z.to_nat (2 * Z.log2 b + 3)) a b 1 0 0 1.

(** [inv(n, q) = egcd(n, q)[0] % q] *)
Definition inv (n q : Z) : result Z :=
  '(s, _, _) <- egcd n q ;;
  pymod s q.

(** The [for i in range(1, q)] loop of [sqrt]. *)
Fixpoint sqrt_loop (n q : Z) (ks : list Z) : result (Z * Z) :=
  match ks with
  | [] => Raise (Exception "not found")
  | i :: rest =>
      m <- pymod (i * i) q ;;
      if m =? n then Ok (i, q - i) else sqrt_loop n q rest
  end.

(** [sqrt(n, q)] *)
Definition sqrt (n q : Z) : result (Z * Z) :=
  _ <- assert (n <? q) ;;
  sqrt_loop n q (range 1 q).

(** ** Points *)

(** [Coord = namedtuple("Coord", ["x", "y"])] *)
Record Coord : Type := mkCoord { x : Z; y : Z }.

Definition Coord_eqb (p1 p2 : Coord) : bool :=
  (x p1 =? x p2) && (y p1 =? y p2).

(** ** The class [EC] *)

Module EC.

Record t : Type := mk { a : Z; b : Z; q : Z }.

(** [EC.__init__] *)
Definition init (a b q : Z) : result t :=
  _ <- assert ((0 <? a) && (a <? q) && (0 <? b) && (b <? q) && (q >? 2)) ;;
  Ok (mk a b q).

(** [self.zero = Coord(0, 0)] *)
Definition zero (ec : t) : Coord := mkCoord 0 0.

(** [EC.is_valid] *)
Definition is_valid (ec : t) (p : Coord) : result bool :=
  if Coord_eqb p (zero ec) then Ok true
  else
    l <- pymod (y p ^ 2) (q ec) ;;
    r <- pymod (x p ^ 3 + a ec * x p + b ec) (q ec) ;;
    Ok (l =? r).

(** [EC.at] *)
Definition at_ (ec : t) (x : Z) : result (Coord * Coord) :=
  _ <- assert (x <? q ec) ;;
  ysq <- pymod (x ^ 3 + a ec * x + b ec) (q ec) ;;
  '(y, my) <- sqrt ysq (q ec) ;;
  Ok (mkCoord x y, mkCoord x my).

(** [EC.neg] *)
Definition neg (ec : t) (p : Coord) : result Coord :=
  ny <- pymod (- y p) (q ec) ;;
  Ok (mkCoord (x p) ny).

(** [EC.add] *)
Definition add (ec : t) (p1 p2 : Coord) : result Coord :=
  if Coord_eqb p1 (zero ec) then Ok p2
  else if Coord_eqb p2 (zero ec) then Ok p1
  else if (x p1 =? x p2) && (negb (y p1 =? y p2) || (y p1 =? 0)) then
    Ok (zero ec)
  else
    l <- (if x p1 =? x p2 then
            i <- inv (2 * y p1) (q ec) ;;
            pymod ((3 * x p1 * x p1 + a ec) * i) (q ec)
          else
            i <- inv (x p2 - x p1) (q ec) ;;
            pymod ((y p2 - y p1) * i) (q ec)) ;;
    x3 <- pymod (l * l - x p1 - x p2) (q ec) ;;
    y3 <- pymod (l * (x p1 - x3) - y p1) (q ec) ;;
    Ok (mkCoord x3 y3).

(** The [while 0 < n] loop of [EC.mul]; one unit of fuel per iteration. *)
Fixpoint mul_loop (fuel : nat) (ec : t) (r m2 : Coord) (n : Z) : result Coord :=
  if 0 <? n then
    match fuel with
    | O => Raise OutOfFuel
    | S fuel' =>
        r' <- (if Z.land n 1 =? 1 then add ec r m2 else Ok r) ;;
        m2' <- add ec m2 m2 ;;
        mul_loop fuel' ec r' m2' (Z.shiftr n 1)
    end
  else Ok r.

(** [EC.mul]: the loop halves [n], so it runs once per binary digit. *)
Definition mul (ec : t) (p : Coord) (n : Z) : result Coord :=
  mul_loop (S (Z.to_nat (Z.log2 n))) ec (zero ec) p n.

(** The [for i in range(1, self.q + 1)] loop of [EC.order]. *)
Fixpoint order_loop (ec : t) (g : Coord) (ks : list Z) : result Z :=
  match ks with
  | [] => Raise (Exception "Invalid order")
  | i :: rest =>
      m <- mul ec g i ;;
      if Coord_eqb m (zero ec) then Ok i else order_loop ec g rest
  end.

(** [EC.order] *)
Definition order (ec : t) (g : Coord) : result Z :=
  v <- is_valid ec g ;;
  _ <- assert (v && negb (Coord_eqb g (zero ec))) ;;
  order_loop ec g (range 1 (q ec + 1)).

End EC.

(** ** The class [ElGamal] *)

Module ElGamal.

Record t : Type := mk { ec : EC.t; g : Coord; n : Z }.

(** [ElGamal.__init__] *)
Definition init (ec : EC.t) (g : Coord) : result t :=
  v <- EC.is_valid ec g ;;
  _ <- assert v ;;
  n <- EC.order ec g ;;
  Ok (mk ec g n).

(** [ElGamal.gen] *)
Definition gen (eg : t) (priv : Z) : result Coord :=
  EC.mul (ec eg) (g eg) priv.

(** [ElGamal.enc]: only the masked point is returned. *)
Definition enc (eg : t) (plain pub : Coord) (r : Z) : result Coord :=
  v1 <- EC.is_valid (ec eg) plain ;;
  _ <- assert v1 ;;
  v2 <- EC.is_valid (ec eg) pub ;;
  _ <- assert v2 ;;
  m <- EC.mul (ec eg) pub r ;;
  EC.add (ec eg) plain m.

(** [ElGamal.enc2]: the pair (nonce point, masked point). *)
Definition enc2 (eg : t) (plain pub : Coord) (r : Z) : result (Coord * Coord) :=
  v1 <- EC.is_valid (ec eg) plain ;;
  _ <- assert v1 ;;
  v2 <- EC.is_valid (ec eg) pub ;;
  _ <- assert v2 ;;
  c1 <- EC.mul (ec eg) (g eg) r ;;
  m <- EC.mul (ec eg) pub r ;;
  c2 <- EC.add (ec eg) plain m ;;
  Ok (c1, c2).

(** [ElGamal.dec] *)
Definition dec (eg : t) (cipher : Coord * Coord) (priv : Z) : result Coord :=
  let '(c1, c2) := cipher in
  v1 <- EC.is_valid (ec eg) c1 ;;
  v2 <- (if v1 then EC.is_valid (ec eg) c2 else Ok false) ;;
  _ <- assert v2 ;;
  m <- EC.mul (ec eg) c1 priv ;;
  nm <- EC.neg (ec eg) m ;;
  EC.add (ec eg) c2 nm.

End ElGamal.

(** ** Text codecs *)

(** A Python [str] is the list of its code points: [ord] is the
    identity and [chr] checks the code-point range. *)
Definition str : Type := list Z.

Definition chr (i : Z) : result Z :=
  if (0 <=? i) && (i <? 1114112) then Ok i else Raise ValueError.

Definition str_of_string (s : string) : str :=
  map (fun c => Z.of_N (N_of_ascii c)) (list_ascii_of_string s).

Definition max_bits : Z := 20.

(** The [for bit in range(1, max_bits)] loop of [map_to_point_koblitz];
    the bare [except] swallows every exception of the body. *)
Fixpoint koblitz_loop (m : Z) (ec : EC.t) (bits : list Z) : option Coord :=
  match bits with
  | [] => None
  | bit :: rest =>
      match (x <- pymod (m * max_bits + bit) (EC.q ec) ;;
             '(p, _) <- EC.at_ ec x ;;
             Ok p) with
      | Ok p => Some p
      | Raise _ => koblitz_loop m ec rest
      end
  end.

(** [map_to_point_koblitz]: falls off the loop and returns [None] when
    no offset works. *)
Definition map_to_point_koblitz (m : Z) (ec : EC.t) : option Coord :=
  koblitz_loop m ec (range 1 max_bits).

(** [map_to_points_koblitz] *)
Definition map_to_points_koblitz (message : str) (ec : EC.t) : list (option Coord) :=
  map (fun c => map_to_point_koblitz c ec) message.

(** [map_to_points_ascii] *)
Fixpoint map_to_points_ascii (message : str) (ec : EC.t) : result (list Coord) :=
  match message with
  | [] => Ok []
  | c :: rest =>
      '(p, _) <- EC.at_ ec c ;;
      ps <- map_to_points_ascii rest ec ;;
      Ok (p :: ps)
  end.

(** [round(x / d)] for integers [x] and [d > 0]: Python divides in floating
    point and rounds halves to the even neighbour.  For the magnitudes at
    hand (far below 2^50) the quotient is either an exact half or at least
    [1/d] away from one, so the result is that of the exact rational. *)
Definition py_round_div (x d : Z) : Z :=
  let k := x / d in
  let r := x mod d in
  if 2 * r <? d then k
  else if d <? 2 * r then k + 1
  else if Z.even k then k else k + 1.

(** [map_to_chars]; the caller passes [str(x)] for each x-coordinate and
    the function reads it back with [int], so the argument is modelled as
    the list of the integers themselves. *)
Fixpoint map_to_chars (points : list Z) : result str :=
  match points with
  | [] => Ok []
  | point :: rest =>
      c <- chr (py_round_div point max_bits) ;;
      cs <- map_to_chars rest ;;
      Ok (c :: cs)
  end.

(** [encrypt_points2]; a [None] among the points has no attribute [y]. *)
Fixpoint encrypt_points2 (points : list (option Coord)) (eg : ElGamal.t)
    (pub : Coord) (rand : Z) : result (list (Coord * Coord)) :=
  match points with
  | [] => Ok []
  | None :: _ => Raise AttributeError
  | Some p :: rest =>
      c <- ElGamal.enc2 eg p pub rand ;;
      cs <- encrypt_points2 rest eg pub rand ;;
      Ok (c :: cs)
  end.

(** [encrypt_points] *)
Fixpoint encrypt_points (points : list (option Coord)) (eg : ElGamal.t)
    (pub : Coord) (rand : Z) : result (list Coord) :=
  match points with
  | [] => Ok []
  | None :: _ => Raise AttributeError
  | Some p :: rest =>
      c <- ElGamal.enc eg p pub rand ;;
      cs <- encrypt_points rest eg pub rand ;;
      Ok (c :: cs)
  end.

(** The [for i in range(q)] loop of [get_eg_g]; [except Exception]
    swallows a failed [at], a failed [order] and the failed assertion. *)
Fixpoint get_eg_g_loop (ec : EC.t) (ks : list Z) : option Coord :=
  match ks with
  | [] => None
  | i :: rest =>
      match ('(g, _) <- EC.at_ ec i ;;
             o <- EC.order ec g ;;
             _ <- assert (o <=? EC.q ec) ;;
             Ok g) with
      | Ok g => Some g
      | Raise _ => get_eg_g_loop ec rest
      end
  end.

(** [get_eg_g] *)
Definition get_eg_g (q : Z) (ec : EC.t) : option Coord :=
  get_eg_g_loop ec (range 0 q).

(** ** The pipeline of the two GUI commands

    [encrypt_message] and [decrypt_message] without the widgets and the
    file in between: the ciphertext list is handed over as it is. *)

(** [is_valid_eg] *)
Definition is_valid_eg (a b q : Z) : result bool :=
  d <- pymod (4 * a ^ 3 + 27 * b ^ 2) q ;;
  Ok (negb (d =? 0)).

(** The cipher both commands build: curve, base point, [ElGamal]. *)
Definition build_cipher (a b q : Z) : result ElGamal.t :=
  ns <- is_valid_eg a b q ;;
  if negb ns then Raise (Exception "EC is singular!")
  else
    ec <- EC.init a b q ;;
    match get_eg_g q ec with
    | None => Raise (Exception "EC is bad!")
    | Some g => ElGamal.init ec g
    end.

(** [encrypt_message]: Koblitz points of the message, public key of
    [priv], pair-returning encryption of every point under [rand]. *)
Definition encrypt_message (a b q priv rand : Z) (message : str)
  : result (list (Coord * Coord)) :=
  eg <- build_cipher a b q ;;
  let points := map_to_points_koblitz message (ElGamal.ec eg) in
  pub <- ElGamal.gen eg priv ;;
  encrypt_points2 points eg pub rand.

(** The [for i in points] loop of [decrypt_message]. *)
Fixpoint decrypt_points (eg : ElGamal.t) (points : list (Coord * Coord))
    (priv : Z) : result (list Coord) :=
  match points with
  | [] => Ok []
  | c :: rest =>
      p <- ElGamal.dec eg c priv ;;
      ps <- decrypt_points eg rest priv ;;
      Ok (p :: ps)
  end.

(** [decrypt_message]: decrypt every pair, keep the x-coordinates,
    decode them with [map_to_chars]. *)
Definition decrypt_message (a b q priv : Z) (cipher : list (Coord * Coord))
  : result str :=
  eg <- build_cipher a b q ;;
  plain_points <- decrypt_points eg cipher priv ;;
  map_to_chars (map x plain_points).

(** [validate_coffs], the command of the "validate" button.  [%] binds
    tighter than [+], so only [27 * b ** 2] is reduced modulo [q].  The
    result is [False], after the error box, or the string "all right". *)
Definition validate_coffs (a b q : Z) : result (bool + string) :=
  r <- pymod (27 * b ^ 2) q ;;
  if negb (negb (4 * a ^ 3 + r =? 0)) then Ok (inl false)
  else Ok (inr "all right"%string).

(** ** Reference definitions *)

(** The [[ref] O(n) add] loop that [EC.mul] keeps as a comment:
    [n] times [r = self.add(r, p)], starting from [self.zero]. *)
Fixpoint repeated_add (ec : EC.t) (p : Coord) (k : nat) : result Coord :=
  match k with
  | O => Ok (EC.zero ec)
  | S k' => r <- repeated_add ec p k' ;; EC.add ec r p
  end.

(** The assertion of [EC.__init__]: what every constructed curve
    satisfies. *)
Definition constructed (ec : EC.t) : Prop :=
  0 < EC.a ec < EC.q ec /\ 0 < EC.b ec < EC.q ec /\ 2 < EC.q ec.

(** A point of the data model has both coordinates in [[0, q)]. *)
Definition reduced (ec : EC.t) (p : Coord) : Prop :=
  0 <= x p < EC.q ec /\ 0 <= y p < EC.q ec.

(** A valid point of the curve: a point of the data model that
    [EC.is_valid] accepts. *)
Definition curve_point (ec : EC.t) (p : Coord) : Prop :=
  reduced ec p /\ EC.is_valid ec p = Ok true.

(** A point at which the curve has a tangent; only the singular point
    of a singular curve is not regular. *)
Definition regular_at (ec : EC.t) (p : Coord) : Prop :=
  y p <> 0 \/ (3 * x p * x p + EC.a ec) mod EC.q ec <> 0.

(** The discriminant test of the data model, [4a^3 + 27b^2 mod q <> 0]. *)
Definition nonsingular (ec : EC.t) : Prop :=
  (4 * EC.a ec ^ 3 + 27 * EC.b ec ^ 2) mod EC.q ec <> 0.

(** Trial division, to see that a given modulus is prime. *)
Definition prime_check (p : Z) : bool :=
  (1 <? p) && forallb (fun n => negb (p mod n =? 0)) (range 2 p).

(** *** Values of the operations

    On a constructed curve ([q > 2]) none of [is_valid], [neg], [add]
    raises; these are the values they return ([is_valid_ok], [neg_ok],
    [add_ok] below). *)

Definition valid (ec : EC.t) (p : Coord) : bool :=
  Coord_eqb p (EC.zero ec)
  || ((y p ^ 2) mod EC.q ec =? (x p ^ 3 + EC.a ec * x p + EC.b ec) mod EC.q ec).

Definition inv_val (n q : Z) : Z :=
  match inv n q with
  | Ok s => s
  | Raise _ => 0
  end.

Definition pneg (ec : EC.t) (p : Coord) : Coord :=
  mkCoord (x p) ((- y p) mod EC.q ec).

Definition padd (ec : EC.t) (p1 p2 : Coord) : Coord :=
  if Coord_eqb p1 (EC.zero ec) then p2
  else if Coord_eqb p2 (EC.zero ec) then p1
  else if (x p1 =? x p2) && (negb (y p1 =? y p2) || (y p1 =? 0)) then EC.zero ec
  else
    let l := if x p1 =? x p2
             then ((3 * x p1 * x p1 + EC.a ec) * inv_val (2 * y p1) (EC.q ec)) mod EC.q ec
             else ((y p2 - y p1) * inv_val (x p2 - x p1) (EC.q ec)) mod EC.q ec in
    let x3 := (l * l - x p1 - x p2) mod EC.q ec in
    let y3 := (l * (x p1 - x3) - y p1) mod EC.q ec in
    mkCoord x3 y3.

(** [k] times [p], adding on the right as [repeated_add] does. *)
Fixpoint nsmul (ec : EC.t) (p : Coord) (k : nat) : Coord :=
  match k with
  | O => EC.zero ec
  | S k' => padd ec (nsmul ec p k') p
  end.

(** [smooth m c]: every prime factor of the integer [c] divides [m]; used
    to see that an integer constant is not zero in a field where [m] is
    not. *)
Fixpoint powZ (m : Z) (k : nat) : Z :=
  match k with
  | O => 1%Z
  | S k' => (m * powZ m k')%Z
  end.

Definition smooth (m c : Z) : bool :=
  (powZ m (Z.to_nat (Z.log2 (Z.abs c) + 1)) mod c =? 0)%Z.

(** *** The group law of a short Weierstrass curve over a field

    The textbook chord-and-tangent law on [y^2 = x^3 + a x + b], with
    [None] for the point at infinity, over any field [K] given by its
    operations.  [EC.add] is compared with it below. *)

Section WeierstrassDefs.
Import NsatzTactic.
#[local] Close Scope Z_scope.
Context {K : Type} {K0 K1 : K} {Kadd Kmul Ksub : K -> K -> K} {Kopp : K -> K}
        {Ko : @Ring_ops K K0 K1 Kadd Kmul Ksub Kopp (@eq K)}.
Variable Kinv : K -> K.
Variable Keqb : K -> K -> bool.
Variables a b : K.

Definition point : Type := option (K * K).

Definition on_curve (P : point) : Prop :=
  match P with
  | None => True
  | Some (x, y) => y * y = x * x * x + a * x + b
  end.

Definition wneg (P : point) : point :=
  match P with
  | None => None
  | Some (x, y) => Some (x, - y)
  end.

Definition wadd (P Q : point) : point :=
  match P, Q with
  | None, _ => Q
  | _, None => P
  | Some (x1, y1), Some (x2, y2) =>
      if Keqb x1 x2 && (negb (Keqb y1 y2) || Keqb y1 0) then None
      else
        let l := if Keqb x1 x2
                 then ((1 + (1 + 1)) * x1 * x1 + a) * Kinv ((1 + 1) * y1)
                 else (y2 - y1) * Kinv (x2 - x1) in
        let x3 := l * l - x1 - x2 in
        let y3 := l * (x1 - x3) - y1 in
        Some (x3, y3)
  end.

Definition nonzero (u : K) : Prop := u <> 0.

(** A point at which the curve has a tangent: not the singular point
    of a singular curve. *)
Definition regular (P : point) : Prop :=
  match P with
  | None => True
  | Some (x, y) => y <> 0 \/ (1 + (1 + 1)) * x * x + a <> 0
  end.

(** The three ways two affine points add up. *)
Inductive wadd_spec (x1 y1 x2 y2 : K) : point -> Prop :=
| WOpp : x2 = x1 -> y1 + y2 = 0 -> wadd_spec x1 y1 x2 y2 None
| WDbl l x3 y3 : x2 = x1 -> y2 = y1 -> y1 <> 0 ->
    l * ((1 + 1) * y1) = (1 + (1 + 1)) * x1 * x1 + a ->
    x3 = l * l - x1 - x2 -> y3 = l * (x1 - x3) - y1 ->
    wadd_spec x1 y1 x2 y2 (Some (x3, y3))
| WAdd l x3 y3 : x1 <> x2 ->
    l * (x2 - x1) = y2 - y1 ->
    x3 = l * l - x1 - x2 -> y3 = l * (x1 - x3) - y1 ->
    wadd_spec x1 y1 x2 y2 (Some (x3, y3)).

End WeierstrassDefs.

(** A valid point of the data model, with [valid] for [is_valid]. *)
Definition pt (ec : EC.t) (p : Coord) : Prop :=
  reduced ec p /\ valid ec p = true.

(** The regular valid points: the set on which the group law is proved. *)
Definition regular_point (ec : EC.t) (p : Coord) : Prop :=
  pt ec p /\ regular_at ec p.

(** *** Enumeration of the curves and points over [Z/3] *)

Definition coords3 : list Z := [0; 1; 2].

Definition points3 : list Coord :=
  flat_map (fun u => map (mkCoord u) coords3) coords3.

Definition curves3 : list EC.t :=
  flat_map (fun a => map (fun b => EC.mk a b 3) [1; 2]) [1; 2].

(** Inverse, closure, commutativity and associativity on one curve,
    for all its valid points with coordinates in [[0, 3)]. *)
Definition laws3 (ec : EC.t) : bool :=
  forallb (fun p1 =>
    implb (valid ec p1)
      (Coord_eqb (padd ec p1 (pneg ec p1)) (EC.zero ec)
       && forallb (fun p2 =>
            implb (valid ec p2)
              (valid ec (padd ec p1 p2)
               && Coord_eqb (padd ec p1 p2) (padd ec p2 p1)
               && forallb (fun p3 =>
                    implb (valid ec p3)
                      (Coord_eqb (padd ec (padd ec p1 p2) p3)
                         (padd ec p1 (padd ec p2 p3))))
                    points3))
            points3))
    points3.

(** *** The worked example: curve, base point and cipher *)

Definition ec_example : EC.t := EC.mk 9 7 4093.
Definition g_example : Coord := mkCoord 1 181.
Definition eg_example : ElGamal.t := ElGamal.mk ec_example g_example 4093.

(** The point of the field [Zmod q] a [Coord] stands for. *)
Definition to_point (ec : EC.t) (p : Coord) : @point (Zmod (EC.q ec)) :=
  if Coord_eqb p (EC.zero ec) then None
  else Some (Zmod.of_Z (EC.q ec) (x p), Zmod.of_Z (EC.q ec) (y p)).

(** * Properties *)

(** ** The error monad and ranges *)

Lemma pymod_ok (a b : Z) : b <> 0 -> pymod a b = Ok (a mod b).
Proof.
  intros Hb. unfold pymod. destruct (Z.eqb_spec b 0); [contradiction | reflexivity].
Qed.

Lemma pymod_zero (a : Z) : pymod a 0 = Raise ZeroDivisionError.
Proof. reflexivity. Qed.

Lemma assert_true : assert true = Ok tt.
Proof. reflexivity. Qed.

Lemma range_nil (lo hi : Z) : hi <= lo -> range lo hi = [].
Proof.
  intros H. unfold range. replace (Z.to_nat (hi - lo)) with 0%nat by lia. reflexivity.
Qed.

Lemma range_cons (lo hi : Z) : lo < hi -> range lo hi = lo :: range (lo + 1) hi.
Proof.
  intros H. unfold range.
  replace (Z.to_nat (hi - lo)) with (S (Z.to_nat (hi - (lo + 1)))) by lia.
  cbn [seq map]. f_equal; [lia|].
  rewrite <- seq_shift, map_map. apply map_ext. intros k. lia.
Qed.

Lemma in_range (lo hi i : Z) : In i (range lo hi) <-> lo <= i < hi.
Proof.
  unfold range. rewrite in_map_iff. split.
  - intros [k [<- Hk]]. apply in_seq in Hk. lia.
  - intros H. exists (Z.to_nat (i - lo)). split; [lia|]. apply in_seq. lia.
Qed.

Lemma range_app (lo mid hi : Z) :
  lo <= mid <= hi -> range lo hi = range lo mid ++ range mid hi.
Proof.
  remember (Z.to_nat (mid - lo)) as k eqn:Hk. revert lo Hk.
  induction k as [|k IH]; intros lo Hk H.
  - assert (mid = lo) by lia. subst mid. now rewrite (range_nil lo lo) by lia.
  - rewrite (range_cons lo hi), (range_cons lo mid) by lia.
    cbn [app]. f_equal. apply IH; lia.
Qed.

(** The first index of a range at which a test succeeds, if any. *)
Lemma first_in_range (P : Z -> bool) (lo hi : Z) :
  (exists i, lo <= i < hi /\ P i = true /\ forall j, lo <= j < i -> P j = false)
  \/ (forall j, lo <= j < hi -> P j = false).
Proof.
  remember (Z.to_nat (hi - lo)) as k eqn:Hk. revert lo Hk.
  induction k as [|k IH]; intros lo Hk.
  - right. intros j Hj. lia.
  - destruct (P lo) eqn:E.
    + left. exists lo. split; [lia|]. split; [exact E|]. intros j Hj. lia.
    + destruct (IH (lo + 1) ltac:(lia)) as [[i [Hi [Pi Hmin]]]|Hnone].
      * left. exists i. split; [lia|]. split; [exact Pi|].
        intros j Hj. destruct (Z.eq_dec j lo) as [->|]; trivial. apply Hmin. lia.
      * right. intros j Hj. destruct (Z.eq_dec j lo) as [->|]; trivial.
        apply Hnone. lia.
Qed.

(** ** [egcd] and [inv] *)

Lemma egcd_loop_stop (fuel : nat) (a b s0 s1 t0 t1 : Z) :
  b <= 0 -> egcd_loop fuel a b s0 s1 t0 t1 = Ok (s0, t0, a).
Proof.
  intros Hb. destruct fuel; cbn [egcd_loop];
    destruct (Z.ltb_spec 0 b); try lia; reflexivity.
Qed.

(** Bezout invariant of the loop, and enough fuel once the running pair
    is ordered: the product [a * b] at least halves in every round. *)
Lemma egcd_loop_spec (n m : Z) (fuel : nat) :
  forall a b s0 s1 t0 t1,
    0 <= b < a -> a * b < 2 ^ Z.of_nat fuel ->
    a = n * s0 + m * t0 -> b = n * s1 + m * t1 ->
    exists s t,
      egcd_loop fuel a b s0 s1 t0 t1 = Ok (s, t, Z.gcd a b)
      /\ n * s + m * t = Z.gcd a b.
Proof.
  induction fuel as [|fuel IH]; intros a b s0 s1 t0 t1 Hab Hfuel Ha Hb.
  - assert (Hb0 : b = 0) by (cbn in Hfuel; nia). rewrite Hb0 in *.
    exists s0, t0. rewrite egcd_loop_stop, Z.gcd_0_r, Z.abs_eq by lia.
    split; [reflexivity | lia].
  - cbn [egcd_loop]. destruct (Z.ltb_spec 0 b) as [Hpos|Hnpos].
    + pose proof (Z_div_mod a b ltac:(lia)) as Hdiv.
      destruct (Z.div_eucl a b) as [q r]. destruct Hdiv as [Hq Hr].
      assert (Hq1 : 1 <= q) by nia.
      destruct (IH b r s1 (s0 - q * s1) t1 (t0 - q * t1)) as [s [t [E1 E2]]];
        try lia.
      * rewrite Nat2Z.inj_succ, Z.pow_succ_r in Hfuel by lia. nia.
      * assert (Hg : Z.gcd b r = Z.gcd a b).
        { rewrite Hq, (Z.gcd_comm (b * q + r) b), Z.add_comm, Z.mul_comm.
          now rewrite Z.gcd_add_mult_diag_r. }
        rewrite Hg in *. exists s, t. split; assumption.
    + assert (Hb0 : b = 0) by lia. rewrite Hb0 in *.
      exists s0, t0. rewrite Z.gcd_0_r, Z.abs_eq by lia. split; [reflexivity | lia].
Qed.

(** [egcd] never runs out of fuel and returns Bezout coefficients of
    the gcd when the second argument is positive. *)
Lemma egcd_spec (n q : Z) :
  0 < q ->
  exists s t, egcd n q = Ok (s, t, Z.gcd n q) /\ n * s + q * t = Z.gcd n q.
Proof.
  intros Hq. unfold egcd.
  pose proof (Z.log2_nonneg q) as Hl.
  replace (Z.to_nat (2 * Z.log2 q + 3)) with (S (Z.to_nat (2 * Z.log2 q + 2))) by lia.
  cbn [egcd_loop]. destruct (Z.ltb_spec 0 q) as [_|]; [|lia].
  pose proof (Z_div_mod n q ltac:(lia)) as Hdiv.
  destruct (Z.div_eucl n q) as [k r]. destruct Hdiv as [Hk Hr].
  destruct (egcd_loop_spec n q (Z.to_nat (2 * Z.log2 q + 2)) q r 0 (1 - k * 0) 1 (0 - k * 1))
    as [s [t [E1 E2]]]; try lia.
  - rewrite Z2Nat.id by lia.
    pose proof (Z.log2_spec q Hq) as [_ Hlt].
    replace (2 * Z.log2 q + 2) with (Z.succ (Z.log2 q) + Z.succ (Z.log2 q)) by lia.
    rewrite Z.pow_add_r by lia. nia.
  - assert (Hg : Z.gcd q r = Z.gcd n q).
    { rewrite Hk, (Z.gcd_comm (q * k + r) q), Z.add_comm, Z.mul_comm.
      now rewrite Z.gcd_add_mult_diag_r. }
    rewrite Hg in *. exists s, t. split; assumption.
Qed.

Lemma egcd_nonpos (n q : Z) : q <= 0 -> egcd n q = Ok (1, 0, n).
Proof. intros Hq. unfold egcd. now apply egcd_loop_stop. Qed.

Lemma egcd_total (n q : Z) : exists r, egcd n q = Ok r.
Proof.
  destruct (Z_lt_le_dec 0 q) as [H|H].
  - destruct (egcd_spec n q H) as [s [t [E _]]]. eauto.
  - rewrite egcd_nonpos by assumption. eauto.
Qed.

(** For a positive modulus [inv] returns, without ever failing, a
    reduced [s] with [n * s = gcd n q] modulo [q]. *)
Lemma inv_spec (n q : Z) :
  0 < q ->
  exists s, inv n q = Ok s /\ 0 <= s < q /\ (n * s) mod q = Z.gcd n q mod q.
Proof.
  intros Hq. destruct (egcd_spec n q Hq) as [s [t [E B]]].
  exists (s mod q). unfold inv. rewrite E. cbn [bind].
  rewrite pymod_ok by lia. split; [reflexivity|]. split.
  - apply Z.mod_pos_bound. lia.
  - rewrite Z.mul_mod_idemp_r by lia. rewrite <- B.
    replace (n * s + q * t) with (n * s + t * q) by lia.
    now rewrite Z.mod_add by lia.
Qed.

Lemma inv_zero_modulus (n : Z) : inv n 0 = Raise ZeroDivisionError.
Proof. unfold inv. rewrite egcd_nonpos by lia. reflexivity. Qed.

(** ** Constructed curves: nothing raises *)

Lemma Coord_eqb_spec (p1 p2 : Coord) : reflect (p1 = p2) (Coord_eqb p1 p2).
Proof.
  unfold Coord_eqb. destruct p1 as [x1 y1], p2 as [x2 y2]. cbn [x y].
  destruct (Z.eqb_spec x1 x2), (Z.eqb_spec y1 y2); constructor; congruence.
Qed.

Lemma init_constructed (a b q : Z) (ec : EC.t) :
  EC.init a b q = Ok ec -> ec = EC.mk a b q /\ constructed ec.
Proof.
  unfold EC.init, constructed.
  destruct (Z.ltb_spec 0 a), (Z.ltb_spec a q), (Z.ltb_spec 0 b), (Z.ltb_spec b q),
    (Z.gtb_spec q 2); cbn; intros E; inversion E; subst; cbn; split; trivial; lia.
Qed.

Lemma constructed_init (ec : EC.t) :
  constructed ec -> EC.init (EC.a ec) (EC.b ec) (EC.q ec) = Ok ec.
Proof.
  unfold EC.init, constructed. intros H.
  destruct (Z.ltb_spec 0 (EC.a ec)), (Z.ltb_spec (EC.a ec) (EC.q ec)),
    (Z.ltb_spec 0 (EC.b ec)), (Z.ltb_spec (EC.b ec) (EC.q ec)),
    (Z.gtb_spec (EC.q ec) 2); try lia.
  destruct ec; reflexivity.
Qed.

Lemma is_valid_ok (ec : EC.t) (p : Coord) :
  EC.q ec <> 0 -> EC.is_valid ec p = Ok (valid ec p).
Proof.
  intros Hq. unfold EC.is_valid, valid.
  destruct (Coord_eqb p (EC.zero ec)); [reflexivity|].
  repeat (rewrite pymod_ok by assumption; cbn [bind]). reflexivity.
Qed.

Lemma neg_ok (ec : EC.t) (p : Coord) :
  EC.q ec <> 0 -> EC.neg ec p = Ok (pneg ec p).
Proof. intros Hq. unfold EC.neg, pneg. now rewrite pymod_ok. Qed.

Lemma inv_ok (n q : Z) : 0 < q -> inv n q = Ok (inv_val n q).
Proof.
  intros Hq. unfold inv_val. destruct (inv_spec n q Hq) as [s [E _]].
  now rewrite E.
Qed.

Lemma inv_val_spec (n q : Z) :
  0 < q ->
  0 <= inv_val n q < q /\ (n * inv_val n q) mod q = Z.gcd n q mod q.
Proof.
  intros Hq. unfold inv_val. destruct (inv_spec n q Hq) as [s [E H]].
  now rewrite E.
Qed.

Lemma add_ok (ec : EC.t) (p1 p2 : Coord) :
  0 < EC.q ec -> EC.add ec p1 p2 = Ok (padd ec p1 p2).
Proof.
  intros Hq. unfold EC.add, padd.
  destruct (Coord_eqb p1 (EC.zero ec)); [reflexivity|].
  destruct (Coord_eqb p2 (EC.zero ec)); [reflexivity|].
  destruct ((x p1 =? x p2) && (negb (y p1 =? y p2) || (y p1 =? 0))); [reflexivity|].
  destruct (x p1 =? x p2); rewrite inv_ok by assumption; cbn [bind];
    repeat (rewrite pymod_ok by lia; cbn [bind]); reflexivity.
Qed.

Lemma repeated_add_ok (ec : EC.t) (p : Coord) (k : nat) :
  0 < EC.q ec -> repeated_add ec p k = Ok (nsmul ec p k).
Proof.
  intros Hq. induction k as [|k IH]; cbn [repeated_add nsmul]; [reflexivity|].
  rewrite IH. cbn [bind]. now apply add_ok.
Qed.

(** The loop of [EC.mul] halves [n]: [fuel] rounds are enough below
    [2 ^ fuel]. *)
Lemma mul_loop_total (ec : EC.t) (fuel : nat) :
  0 < EC.q ec ->
  forall n r m2, n < 2 ^ Z.of_nat fuel ->
    exists m, EC.mul_loop fuel ec r m2 n = Ok m.
Proof.
  intros Hq. induction fuel as [|fuel IH]; intros n r m2 Hn; cbn [EC.mul_loop].
  - destruct (Z.ltb_spec 0 n); [cbn in Hn; lia | eauto].
  - destruct (Z.ltb_spec 0 n) as [Hpos|]; [|eauto].
    rewrite !add_ok by assumption.
    assert (Hhalf : Z.shiftr n 1 < 2 ^ Z.of_nat fuel).
    { rewrite Z.shiftr_div_pow2 by lia. change (2 ^ 1) with 2.
      rewrite Nat2Z.inj_succ, Z.pow_succ_r in Hn by lia.
      apply Z.div_lt_upper_bound; lia. }
    destruct (Z.land n 1 =? 1); cbn [bind]; now apply IH.
Qed.

Lemma mul_fuel (n : Z) : n < 2 ^ Z.of_nat (S (Z.to_nat (Z.log2 n))).
Proof.
  destruct (Z_lt_le_dec 0 n) as [Hn|Hn].
  - pose proof (Z.log2_spec n Hn) as [_ H]. pose proof (Z.log2_nonneg n).
    rewrite Nat2Z.inj_succ, Z2Nat.id by lia. exact H.
  - pose proof (Z.pow_pos_nonneg 2 (Z.of_nat (S (Z.to_nat (Z.log2 n))))). lia.
Qed.

Lemma mul_total (ec : EC.t) (p : Coord) (n : Z) :
  0 < EC.q ec -> exists m, EC.mul ec p n = Ok m.
Proof. intros Hq. apply mul_loop_total; [assumption | apply mul_fuel]. Qed.

(** ** The search loops *)

Lemma sqrt_loop_hit (n q : Z) (l1 l2 : list Z) (i : Z) :
  q <> 0 -> (forall j, In j l1 -> (j * j) mod q <> n) -> (i * i) mod q = n ->
  sqrt_loop n q (l1 ++ i :: l2) = Ok (i, q - i).
Proof.
  intros Hq. induction l1 as [|j l1 IH]; intros Hl1 Hi; cbn [app sqrt_loop];
    rewrite pymod_ok by assumption; cbn [bind].
  - now rewrite (proj2 (Z.eqb_eq _ _) Hi).
  - destruct (Z.eqb_spec ((j * j) mod q) n) as [E|_].
    + exfalso. apply (Hl1 j); [now left | exact E].
    + apply IH; trivial. intros k Hk. apply Hl1. now right.
Qed.

Lemma sqrt_loop_miss (n q : Z) (l : list Z) :
  q <> 0 -> (forall j, In j l -> (j * j) mod q <> n) ->
  sqrt_loop n q l = Raise (Exception "not found").
Proof.
  intros Hq. induction l as [|j l IH]; intros Hl; cbn [sqrt_loop]; [reflexivity|].
  rewrite pymod_ok by assumption. cbn [bind].
  destruct (Z.eqb_spec ((j * j) mod q) n) as [E|_].
  - exfalso. apply (Hl j); [now left | exact E].
  - apply IH. intros k Hk. apply Hl. now right.
Qed.

(** [sqrt] returns the smallest root in [[1, q)] and its opposite, and
    raises when no such root exists. *)
Lemma sqrt_spec (n q : Z) :
  n < q -> q <> 0 ->
  (exists i, 1 <= i < q /\ (i * i) mod q = n
             /\ (forall j, 1 <= j < i -> (j * j) mod q <> n)
             /\ sqrt n q = Ok (i, q - i))
  \/ ((forall j, 1 <= j < q -> (j * j) mod q <> n)
      /\ sqrt n q = Raise (Exception "not found")).
Proof.
  intros Hn Hq. unfold sqrt.
  destruct (Z.ltb_spec n q); [|lia]. cbn [assert bind].
  destruct (first_in_range (fun i => (i * i) mod q =? n) 1 q)
    as [[i [Hi [Pi Hmin]]]|Hnone].
  - left. exists i. apply Z.eqb_eq in Pi.
    assert (Hmin' : forall j, 1 <= j < i -> (j * j) mod q <> n).
    { intros j Hj. apply Z.eqb_neq. now apply Hmin. }
    repeat split; try lia; trivial.
    rewrite (range_app 1 i q), (range_cons i q) by lia.
    apply sqrt_loop_hit; trivial.
    intros j Hj. apply in_range in Hj. now apply Hmin'.
  - right.
    assert (Hnone' : forall j, 1 <= j < q -> (j * j) mod q <> n).
    { intros j Hj. apply Z.eqb_neq. now apply Hnone. }
    split; trivial. apply sqrt_loop_miss; trivial.
    intros j Hj. apply in_range in Hj. now apply Hnone'.
Qed.

Lemma order_loop_hit (ec : EC.t) (g : Coord) (l1 l2 : list Z) (i : Z) :
  (forall j, In j l1 -> exists m, EC.mul ec g j = Ok m /\ m <> EC.zero ec) ->
  EC.mul ec g i = Ok (EC.zero ec) ->
  EC.order_loop ec g (l1 ++ i :: l2) = Ok i.
Proof.
  induction l1 as [|j l1 IH]; intros Hl1 Hi; cbn [app EC.order_loop].
  - rewrite Hi. cbn [bind]. now destruct (Coord_eqb_spec (EC.zero ec) (EC.zero ec)).
  - destruct (Hl1 j) as [m [Em Hm]]; [now left|]. rewrite Em. cbn [bind].
    destruct (Coord_eqb_spec m (EC.zero ec)); [contradiction|].
    apply IH; trivial. intros k Hk. apply Hl1. now right.
Qed.

Lemma order_loop_miss (ec : EC.t) (g : Coord) (l : list Z) :
  (forall j, In j l -> exists m, EC.mul ec g j = Ok m /\ m <> EC.zero ec) ->
  EC.order_loop ec g l = Raise (Exception "Invalid order").
Proof.
  induction l as [|j l IH]; intros Hl; cbn [EC.order_loop]; [reflexivity|].
  destruct (Hl j) as [m [Em Hm]]; [now left|]. rewrite Em. cbn [bind].
  destruct (Coord_eqb_spec m (EC.zero ec)); [contradiction|].
  apply IH. intros k Hk. apply Hl. now right.
Qed.

Lemma koblitz_body (m : Z) (ec : EC.t) (bit : Z) :
  EC.q ec <> 0 ->
  (x <- pymod (m * max_bits + bit) (EC.q ec) ;; '(p, _) <- EC.at_ ec x ;; Ok p)
  = ('(p, _) <- EC.at_ ec ((m * max_bits + bit) mod EC.q ec) ;; Ok p).
Proof. intros Hq. now rewrite pymod_ok. Qed.

Lemma koblitz_loop_hit (m : Z) (ec : EC.t) (l1 l2 : list Z) (i : Z) (p p' : Coord) :
  EC.q ec <> 0 ->
  (forall j, In j l1 ->
     exists e, EC.at_ ec ((m * max_bits + j) mod EC.q ec) = Raise e) ->
  EC.at_ ec ((m * max_bits + i) mod EC.q ec) = Ok (p, p') ->
  koblitz_loop m ec (l1 ++ i :: l2) = Some p.
Proof.
  intros Hq. induction l1 as [|j l1 IH]; intros Hl1 Hi; cbn [app koblitz_loop];
    rewrite koblitz_body by assumption.
  - now rewrite Hi.
  - destruct (Hl1 j) as [e Ee]; [now left|]. rewrite Ee. cbn [bind].
    apply IH; trivial. intros k Hk. apply Hl1. now right.
Qed.

Lemma koblitz_loop_miss (m : Z) (ec : EC.t) (l : list Z) :
  EC.q ec <> 0 ->
  (forall j, In j l ->
     exists e, EC.at_ ec ((m * max_bits + j) mod EC.q ec) = Raise e) ->
  koblitz_loop m ec l = None.
Proof.
  intros Hq. induction l as [|j l IH]; intros Hl; cbn [koblitz_loop]; [reflexivity|].
  rewrite koblitz_body by assumption.
  destruct (Hl j) as [e Ee]; [now left|]. rewrite Ee. cbn [bind].
  apply IH. intros k Hk. apply Hl. now right.
Qed.

(** [map_to_point_koblitz]: the first offset of the window at which
    [EC.at] succeeds decides the point; [None] when none does. *)
Lemma map_to_point_koblitz_spec (m : Z) (ec : EC.t) :
  EC.q ec <> 0 ->
  (exists j p p',
      1 <= j < max_bits
      /\ EC.at_ ec ((m * max_bits + j) mod EC.q ec) = Ok (p, p')
      /\ (forall j', 1 <= j' < j ->
            exists e, EC.at_ ec ((m * max_bits + j') mod EC.q ec) = Raise e)
      /\ map_to_point_koblitz m ec = Some p)
  \/ ((forall j, 1 <= j < max_bits ->
         exists e, EC.at_ ec ((m * max_bits + j) mod EC.q ec) = Raise e)
      /\ map_to_point_koblitz m ec = None).
Proof.
  intros Hq. unfold map_to_point_koblitz.
  set (P := fun j => match EC.at_ ec ((m * max_bits + j) mod EC.q ec) with
                     | Ok _ => true
                     | Raise _ => false
                     end).
  assert (HP : forall j, P j = false ->
             exists e, EC.at_ ec ((m * max_bits + j) mod EC.q ec) = Raise e).
  { unfold P. intros j. destruct (EC.at_ ec _); [discriminate | eauto]. }
  destruct (first_in_range P 1 max_bits) as [[j [Hj [Pj Hmin]]]|Hnone].
  - left. unfold P in Pj.
    destruct (EC.at_ ec ((m * max_bits + j) mod EC.q ec)) as [[p p']|] eqn:E;
      [|discriminate].
    exists j, p, p'. repeat split; try lia; trivial.
    + intros j' Hj'. apply HP, Hmin. lia.
    + rewrite (range_app 1 j max_bits), (range_cons j max_bits) by lia.
      apply (koblitz_loop_hit m ec _ _ j p p'); trivial.
      intros k Hk. apply in_range in Hk. now apply HP, Hmin.
  - right. split.
    + intros j Hj. now apply HP, Hnone.
    + apply koblitz_loop_miss; trivial.
      intros k Hk. apply in_range in Hk. now apply HP, Hnone.
Qed.

Lemma elgamal_init_inv (ec : EC.t) (g : Coord) (eg : ElGamal.t) :
  ElGamal.init ec g = Ok eg ->
  ElGamal.ec eg = ec /\ ElGamal.g eg = g
  /\ EC.is_valid ec g = Ok true /\ EC.order ec g = Ok (ElGamal.n eg).
Proof.
  unfold ElGamal.init. destruct (EC.is_valid ec g) as [[|]|]; cbn; try discriminate.
  destruct (EC.order ec g) as [n|]; cbn; try discriminate.
  intros E. inversion E. subst. cbn. auto.
Qed.

(** ** Scalar multiplication by a non-positive scalar *)

(** C10. For every point [p] and every integer [k <= 0], negative ones
    included, [EC.mul] returns the identity: the loop body never runs. *)
Theorem mul_nonpositive (ec : EC.t) (p : Coord) (k : Z) :
  k <= 0 -> EC.mul ec p k = Ok (EC.zero ec).
Proof.
  intros Hk. unfold EC.mul. cbn [EC.mul_loop].
  destruct (Z.ltb_spec 0 k); [lia | reflexivity].
Qed.

Lemma mul_nonpositive_witness :
  -3 <= 0 /\ EC.mul (EC.mk 1 1 7) (mkCoord 0 1) (-3) = Ok (EC.zero (EC.mk 1 1 7)).
Proof. split; [lia | apply mul_nonpositive; lia]. Defined.

(** ** Encryption *)

(** C2. For valid [plain] and [pub] and [r >= 0], [ElGamal.enc2] returns the
    pair [(mul g r, add plain (mul pub r))], and [ElGamal.enc] is the
    masking-only variant returning the second component alone. *)
Theorem enc2_pair_enc_mask (a b q : Z) (ec : EC.t) (g : Coord) (eg : ElGamal.t)
    (plain pub : Coord) (r : Z) :
  EC.init a b q = Ok ec -> ElGamal.init ec g = Ok eg ->
  EC.is_valid ec plain = Ok true -> EC.is_valid ec pub = Ok true -> 0 <= r ->
  exists c1 m c2,
    EC.mul ec g r = Ok c1 /\ EC.mul ec pub r = Ok m /\ EC.add ec plain m = Ok c2
    /\ ElGamal.enc2 eg plain pub r = Ok (c1, c2)
    /\ ElGamal.enc eg plain pub r = Ok c2.
Proof.
  intros Hec Heg Hplain Hpub _.
  apply init_constructed in Hec. destruct Hec as [_ [_ [_ Hq]]].
  apply elgamal_init_inv in Heg. destruct Heg as [Eec [Eg _]].
  destruct (mul_total ec g r ltac:(lia)) as [c1 E1].
  destruct (mul_total ec pub r ltac:(lia)) as [m Em].
  exists c1, m, (padd ec plain m).
  unfold ElGamal.enc2, ElGamal.enc. rewrite Eec, Eg, Hplain, Hpub, E1, Em.
  cbn [bind assert]. rewrite add_ok by lia. cbn [bind]. auto.
Qed.

Lemma enc2_pair_enc_mask_witness :
  exists c1 m c2,
    EC.mul (EC.mk 1 1 7) (mkCoord 0 1) 3 = Ok c1
    /\ EC.mul (EC.mk 1 1 7) (mkCoord 2 5) 3 = Ok m
    /\ EC.add (EC.mk 1 1 7) (mkCoord 2 2) m = Ok c2
    /\ ElGamal.enc2 (ElGamal.mk (EC.mk 1 1 7) (mkCoord 0 1) 5)
         (mkCoord 2 2) (mkCoord 2 5) 3 = Ok (c1, c2)
    /\ ElGamal.enc (ElGamal.mk (EC.mk 1 1 7) (mkCoord 0 1) 5)
         (mkCoord 2 2) (mkCoord 2 5) 3 = Ok c2.
Proof.
  apply (enc2_pair_enc_mask 1 1 7); [reflexivity .. | lia].
Defined.

(** ** Points at a given abscissa *)

(** C5. For [x0 < q], [EC.at] either returns exactly the two points
    [(x0, y0)] and [(x0, q - y0)] for the smallest root [y0] in [[1, q)],
    both accepted by [is_valid], the negation of the first being the second;
    or it raises "not found" because no value of [[1, q)] squares to
    [ysq].  In particular it raises when [ysq] has no square root at all. *)
Theorem at_spec (a b q : Z) (ec : EC.t) (x0 : Z) :
  EC.init a b q = Ok ec -> x0 < q ->
  let ysq := (x0 ^ 3 + a * x0 + b) mod q in
  ((exists y0,
       1 <= y0 < q /\ (y0 * y0) mod q = ysq
       /\ (forall j, 1 <= j < y0 -> (j * j) mod q <> ysq)
       /\ EC.at_ ec x0 = Ok (mkCoord x0 y0, mkCoord x0 (q - y0))
       /\ EC.is_valid ec (mkCoord x0 y0) = Ok true
       /\ EC.is_valid ec (mkCoord x0 (q - y0)) = Ok true
       /\ EC.neg ec (mkCoord x0 y0) = Ok (mkCoord x0 (q - y0)))
   \/ ((forall j, 1 <= j < q -> (j * j) mod q <> ysq)
       /\ EC.at_ ec x0 = Raise (Exception "not found")))
  /\ ((forall r, (r * r) mod q <> ysq) ->
      EC.at_ ec x0 = Raise (Exception "not found")).
Proof.
  intros Hec Hx ysq.
  apply init_constructed in Hec. destruct Hec as [-> [_ [_ Hq]]]. cbn [EC.q] in Hq.
  assert (Hat : EC.at_ (EC.mk a b q) x0
                = ('(y, my) <- sqrt ysq q ;; Ok (mkCoord x0 y, mkCoord x0 my))).
  { unfold EC.at_. cbn [EC.q EC.a EC.b].
    destruct (Z.ltb_spec x0 q); [|lia]. cbn [assert bind].
    now rewrite pymod_ok by lia. }
  assert (Hysq : 0 <= ysq < q) by (apply Z.mod_pos_bound; lia).
  assert (Hcases :
    (exists y0,
       1 <= y0 < q /\ (y0 * y0) mod q = ysq
       /\ (forall j, 1 <= j < y0 -> (j * j) mod q <> ysq)
       /\ EC.at_ (EC.mk a b q) x0 = Ok (mkCoord x0 y0, mkCoord x0 (q - y0))
       /\ EC.is_valid (EC.mk a b q) (mkCoord x0 y0) = Ok true
       /\ EC.is_valid (EC.mk a b q) (mkCoord x0 (q - y0)) = Ok true
       /\ EC.neg (EC.mk a b q) (mkCoord x0 y0) = Ok (mkCoord x0 (q - y0)))
    \/ ((forall j, 1 <= j < q -> (j * j) mod q <> ysq)
        /\ EC.at_ (EC.mk a b q) x0 = Raise (Exception "not found"))).
  { destruct (sqrt_spec ysq q ltac:(lia) ltac:(lia))
      as [[y0 [Hy0 [Hsq [Hmin Es]]]]|[Hnone Es]]; rewrite Hat, Es; cbn [bind].
    - left. exists y0. repeat split; try lia; trivial.
      + rewrite is_valid_ok by (cbn; lia). f_equal. unfold valid.
        cbn [x y EC.q EC.a EC.b]. apply orb_true_iff. right. apply Z.eqb_eq.
        fold ysq. rewrite <- Hsq. f_equal. lia.
      + rewrite is_valid_ok by (cbn; lia). f_equal. unfold valid.
        cbn [x y EC.q EC.a EC.b]. apply orb_true_iff. right. apply Z.eqb_eq.
        fold ysq. rewrite <- Hsq.
        replace ((q - y0) ^ 2) with (y0 * y0 + (q - 2 * y0) * q) by lia.
        now rewrite Z.mod_add by lia.
      + rewrite neg_ok by (cbn; lia). unfold pneg. cbn [x y EC.q]. f_equal. f_equal.
        replace (- y0) with (q - y0 + (-1) * q) by lia.
        rewrite Z.mod_add by lia. apply Z.mod_small. lia.
    - right. split; trivial. }
  split; [exact Hcases|].
  intros Hnone. destruct Hcases as [[y0 [_ [Hsq _]]]|[_ E]]; [|exact E].
  exfalso. exact (Hnone y0 Hsq).
Qed.

Lemma at_spec_witness :
  let ec := EC.mk 1 1 7 in
  let ysq := (0 ^ 3 + 1 * 0 + 1) mod 7 in
  ((exists y0,
       1 <= y0 < 7 /\ (y0 * y0) mod 7 = ysq
       /\ (forall j, 1 <= j < y0 -> (j * j) mod 7 <> ysq)
       /\ EC.at_ ec 0 = Ok (mkCoord 0 y0, mkCoord 0 (7 - y0))
       /\ EC.is_valid ec (mkCoord 0 y0) = Ok true
       /\ EC.is_valid ec (mkCoord 0 (7 - y0)) = Ok true
       /\ EC.neg ec (mkCoord 0 y0) = Ok (mkCoord 0 (7 - y0)))
   \/ ((forall j, 1 <= j < 7 -> (j * j) mod 7 <> ysq)
       /\ EC.at_ ec 0 = Raise (Exception "not found")))
  /\ ((forall r, (r * r) mod 7 <> ysq) ->
      EC.at_ ec 0 = Raise (Exception "not found")).
Proof. apply (at_spec 1 1 7 (EC.mk 1 1 7) 0); [reflexivity | lia]. Defined.

(** ** Point order *)

(** C6. For a valid point [g] other than the identity, [EC.order] scans
    [1 .. q] in order: it returns the smallest [k >= 1] with
    [mul g k = zero], which is at most [q], and raises "Invalid order"
    when no [k] of [1 .. q] has that property. *)
Theorem order_spec (a b q : Z) (ec : EC.t) (g : Coord) :
  EC.init a b q = Ok ec ->
  EC.is_valid ec g = Ok true -> g <> EC.zero ec ->
  (exists k,
      EC.order ec g = Ok k /\ 1 <= k <= q
      /\ EC.mul ec g k = Ok (EC.zero ec)
      /\ (forall j, 1 <= j < k -> EC.mul ec g j <> Ok (EC.zero ec)))
  \/ (EC.order ec g = Raise (Exception "Invalid order")
      /\ (forall k, 1 <= k <= q -> EC.mul ec g k <> Ok (EC.zero ec))).
Proof.
  intros Hec Hv Hg.
  apply init_constructed in Hec. destruct Hec as [Eec [_ [_ Hq]]].
  assert (Eq : EC.q ec = q) by (now rewrite Eec). rewrite Eq in Hq.
  assert (Hord : EC.order ec g = EC.order_loop ec g (range 1 (q + 1))).
  { unfold EC.order. rewrite Hv, Eq. cbn [bind andb].
    destruct (Coord_eqb_spec g (EC.zero ec)); [contradiction | reflexivity]. }
  set (P := fun i => match EC.mul ec g i with
                     | Ok m => Coord_eqb m (EC.zero ec)
                     | Raise _ => false
                     end).
  assert (HP : forall j, P j = false ->
             (exists m, EC.mul ec g j = Ok m /\ m <> EC.zero ec)
             /\ EC.mul ec g j <> Ok (EC.zero ec)).
  { unfold P. intros j. destruct (mul_total ec g j ltac:(lia)) as [m ->].
    destruct (Coord_eqb_spec m (EC.zero ec)); [discriminate|].
    intros _. split; [eauto | congruence]. }
  destruct (first_in_range P 1 (q + 1)) as [[k [Hk [Pk Hmin]]]|Hnone].
  - left. exists k. unfold P in Pk.
    destruct (EC.mul ec g k) as [m|] eqn:Em; [|discriminate].
    destruct (Coord_eqb_spec m (EC.zero ec)) as [->|]; [|discriminate].
    repeat split; try lia; trivial.
    + rewrite Hord, (range_app 1 k (q + 1)), (range_cons k (q + 1)) by lia.
      apply order_loop_hit; trivial.
      intros j Hj. apply in_range in Hj. now apply HP, Hmin.
    + intros j Hj. apply HP, Hmin. lia.
  - right. split.
    + rewrite Hord. apply order_loop_miss.
      intros j Hj. apply in_range in Hj. apply HP, Hnone. lia.
    + intros k Hk. apply HP, Hnone. lia.
Qed.

Lemma order_spec_witness :
  let ec := EC.mk 1 1 7 in
  let g := mkCoord 0 1 in
  (exists k,
      EC.order ec g = Ok k /\ 1 <= k <= 7
      /\ EC.mul ec g k = Ok (EC.zero ec)
      /\ (forall j, 1 <= j < k -> EC.mul ec g j <> Ok (EC.zero ec)))
  \/ (EC.order ec g = Raise (Exception "Invalid order")
      /\ (forall k, 1 <= k <= 7 -> EC.mul ec g k <> Ok (EC.zero ec))).
Proof.
  apply (order_spec 1 1 7 (EC.mk 1 1 7) (mkCoord 0 1));
    [reflexivity | reflexivity | discriminate].
Defined.

(** ** Modular inverse *)

(** C7, as the code has it.  [inv] has no gcd test: for every [n] and
    every positive modulus it returns, without failing, a reduced [s]
    with [n * s = gcd n q] modulo [q]; so [n * s = 1] modulo [q] when
    [gcd n q = 1]. *)
Theorem inv_never_raises (n q : Z) :
  0 < q ->
  exists s,
    inv n q = Ok s /\ 0 <= s < q
    /\ (n * s) mod q = Z.gcd n q mod q
    /\ (Z.gcd n q = 1 -> (n * s) mod q = 1 mod q).
Proof.
  intros Hq. destruct (inv_spec n q Hq) as [s [E [Hs Hg]]].
  exists s. repeat split; try lia; trivial. intros H1. now rewrite Hg, H1.
Qed.

Lemma inv_never_raises_witness :
  0 < 7 /\
  exists s,
    inv 3 7 = Ok s /\ 0 <= s < 7
    /\ (3 * s) mod 7 = Z.gcd 3 7 mod 7
    /\ (Z.gcd 3 7 = 1 -> (3 * s) mod 7 = 1 mod 7).
Proof. split; [lia | apply inv_never_raises; lia]. Defined.

(** C7 as stated fails: [gcd 2 4 = 2] and [inv 2 4] returns 1; with a
    prime modulus, [gcd 14 7 = 7] and [inv 14 7] returns 0. *)
Lemma inv_gcd_counterexample :
  (Z.gcd 2 4 <> 1 /\ inv 2 4 = Ok 1 /\ (2 * 1) mod 4 <> 1)
  /\ (Z.gcd 14 7 <> 1 /\ inv 14 7 = Ok 0 /\ (14 * 0) mod 7 <> 1).
Proof. repeat split; discriminate. Qed.

(** ** Koblitz encoding *)

(** C8, as the code has it.  [map_to_points_koblitz] never raises and
    returns one entry per character, in order.  The entry of code point
    [m] is the first point of [EC.at ((m * 20 + j) mod q)] for the first
    [j] of [1 .. 19] at which [EC.at] succeeds, and [None] when it fails
    for every [j] of the window; the list of entries is all that is
    returned. *)
Theorem koblitz_entries (a b q : Z) (ec : EC.t) (message : str) :
  EC.init a b q = Ok ec ->
  List.length (map_to_points_koblitz message ec) = List.length message
  /\ forall i m, nth_error message i = Some m ->
       (exists j p p',
           1 <= j < 20
           /\ EC.at_ ec ((m * 20 + j) mod q) = Ok (p, p')
           /\ (forall j', 1 <= j' < j ->
                 exists e, EC.at_ ec ((m * 20 + j') mod q) = Raise e)
           /\ nth_error (map_to_points_koblitz message ec) i = Some (Some p))
       \/ ((forall j, 1 <= j < 20 ->
              exists e, EC.at_ ec ((m * 20 + j) mod q) = Raise e)
           /\ nth_error (map_to_points_koblitz message ec) i = Some None).
Proof.
  intros Hec.
  apply init_constructed in Hec. destruct Hec as [Eec [_ [_ Hq]]].
  assert (Eq : EC.q ec = q) by (now rewrite Eec). rewrite Eq in Hq.
  unfold map_to_points_koblitz. split; [apply length_map|].
  intros i m Hm. rewrite nth_error_map, Hm. cbn [option_map].
  destruct (map_to_point_koblitz_spec m ec ltac:(lia))
    as [[j [p [p' [Hj [E [Hmin Er]]]]]]|[Hnone Er]];
    rewrite Eq in *; change max_bits with 20 in *; rewrite Er.
  - left. exists j, p, p'. auto.
  - right. auto.
Qed.

Lemma koblitz_entries_witness :
  let ec := EC.mk 1 1 7 in
  let message := str_of_string "HI" in
  List.length (map_to_points_koblitz message ec) = List.length message
  /\ forall i m, nth_error message i = Some m ->
       (exists j p p',
           1 <= j < 20
           /\ EC.at_ ec ((m * 20 + j) mod 7) = Ok (p, p')
           /\ (forall j', 1 <= j' < j ->
                 exists e, EC.at_ ec ((m * 20 + j') mod 7) = Raise e)
           /\ nth_error (map_to_points_koblitz message ec) i = Some (Some p))
       \/ ((forall j, 1 <= j < 20 ->
              exists e, EC.at_ ec ((m * 20 + j) mod 7) = Raise e)
           /\ nth_error (map_to_points_koblitz message ec) i = Some None).
Proof. apply (koblitz_entries 1 1 7 (EC.mk 1 1 7)). reflexivity. Defined.

(** C8 as stated fails: the curve [y^2 = x^3 + 2x + 2] over [Z/3] has no
    point with a non-zero ordinate, so ["H"] cannot be encoded; all the
    caller gets is the list holding [None], and the next stage gives up
    on the whole message with it. *)
Lemma koblitz_skip_counterexample :
  EC.init 2 2 3 = Ok (EC.mk 2 2 3)
  /\ map_to_points_koblitz (str_of_string "H") (EC.mk 2 2 3) = [None]
  /\ forall eg pub r,
       encrypt_points2 (map_to_points_koblitz (str_of_string "H") (EC.mk 2 2 3))
         eg pub r = Raise AttributeError.
Proof. repeat split. Qed.

(** ** The group law over a field *)

Section WeierstrassLaws.
Import NsatzTactic.
#[local] Close Scope Z_scope.
Context {K : Type} {K0 K1 : K} {Kadd Kmul Ksub : K -> K -> K} {Kopp : K -> K}
        {Ko : @Ring_ops K K0 K1 Kadd Kmul Ksub Kopp (@eq K)}
        {Kr : @Ring K K0 K1 Kadd Kmul Ksub Kopp (@eq K) Ko}
        {Kc : @Cring K K0 K1 Kadd Kmul Ksub Kopp (@eq K) Ko Kr}
        {Kid : @Integral_domain K K0 K1 Kadd Kmul Ksub Kopp (@eq K) Ko Kr Kc}.
Variable Kinv : K -> K.
Variable Keqb : K -> K -> bool.
Variables a b : K.
Hypothesis Kinv_l : forall u : K, u <> 0 -> Kinv u * u = 1.
Hypothesis Keqb_eq : forall u v : K, Keqb u v = true <-> u = v.

Hypothesis two_nz : nonzero (1 + 1).
Hypothesis three_nz : nonzero (1 + (1 + 1)).

#[local] Abbreviation Wadd := (wadd Kinv Keqb a).
#[local] Abbreviation On_curve := (on_curve a b).
#[local] Abbreviation Regular := (regular a).
#[local] Abbreviation Wadd_spec := (wadd_spec a).

Lemma Keqb_spec (u v : K) : reflect (u = v) (Keqb u v).
Proof.
  destruct (Keqb u v) eqn:E; constructor.
  - now apply Keqb_eq.
  - intros H. apply Keqb_eq in H. congruence.
Qed.

Lemma one_nz : (1 : K) <> 0.
Proof. exact integral_domain_one_zero. Qed.

Lemma mul_nz (u v : K) : u <> 0 -> v <> 0 -> u * v <> 0.
Proof.
  intros Hu Hv H. destruct (integral_domain_product u v H); contradiction.
Qed.


Lemma phi_powZ_nz (m : Z) (k : nat) :
  Ncring_initial.gen_phiZ m <> (0 : K) ->
  Ncring_initial.gen_phiZ (powZ m k) <> (0 : K).
Proof.
  intros Hm. induction k as [|k IH]; cbn [powZ].
  - exact one_nz.
  - rewrite Ncring_initial.gen_phiZ_mul. now apply mul_nz.
Qed.

Lemma IZR1_phi (c : Z) : IZR1 c = (Ncring_initial.gen_phiZ c : K).
Proof.
  assert (HP : forall p, IPR p = (Ncring_initial.gen_phiPOS p : K)).
  { induction p as [p IH|p IH|]; cbn [IPR Ncring_initial.gen_phiPOS];
      try destruct p; try rewrite IH; reflexivity. }
  destruct c; cbn [IZR1 Ncring_initial.gen_phiZ]; rewrite ?HP; reflexivity.
Qed.

Lemma const_nz (m c : Z) :
  Ncring_initial.gen_phiZ m <> (0 : K) -> smooth m c = true -> IZR1 c <> (0 : K).
Proof.
  unfold smooth. intros Hm Hs Hc.
  apply Z.eqb_eq in Hs.
  destruct (Z.eq_dec c 0) as [->|Hc0].
  { rewrite Z.mod_0_r in Hs. 
    apply (phi_powZ_nz m (Z.to_nat (Z.log2 (Z.abs 0) + 1)) Hm).
    now rewrite Hs. }
  apply Z.mod_divide in Hs; trivial. destruct Hs as [w Hw].
  apply (phi_powZ_nz m (Z.to_nat (Z.log2 (Z.abs c) + 1)) Hm).
  rewrite Hw, Ncring_initial.gen_phiZ_mul, <- (IZR1_phi c), Hc.
  apply ring_mul_0_r.
Qed.

Lemma phi_two_nz : Ncring_initial.gen_phiZ 2 <> (0 : K).
Proof. exact two_nz. Qed.

Lemma phi_six_nz : Ncring_initial.gen_phiZ 6 <> (0 : K).
Proof.
  change (Ncring_initial.gen_phiZ 6) with ((1 + 1) * (1 + (1 + 1)) : K).
  apply mul_nz; [exact two_nz | exact three_nz].
Qed.

Lemma neq_inv (u v : K) : u <> v -> exists j, j * (u - v) = 1.
Proof.
  intros H. exists (Kinv (u - v)). apply Kinv_l. intros E. apply H. nsatz.
Qed.

(** Every disequation becomes an inverse, the form [nsatz] can use. *)
Ltac neq_to_inv :=
  repeat match goal with
  | H : ?u <> ?v |- _ =>
      let j := fresh "j" in
      let Hj := fresh "Hj" in
      destruct (neq_inv u v H) as [j Hj]; clear H
  end.

Ltac const_neq :=
  match goal with
  | |- ~ interpret3 (PEc ?c) _ == 0 =>
      cbn [interpret3];
      first [ apply (const_nz 2 c phi_two_nz); vm_compute; reflexivity
            | apply (const_nz 6 c phi_six_nz); vm_compute; reflexivity ]
  end.

Ltac nsatz_k := nsatz; try const_neq.

Ltac absurd_k := exfalso; apply one_nz; nsatz_k.

Ltac elim_inv :=
  repeat match goal with
  | |- context [Kinv ?t] =>
      let Ht := fresh "Ht" in
      assert (Ht : Kinv t * t = 1) by (apply Kinv_l; intro; absurd_k);
      let i := fresh "i" in
      generalize dependent (Kinv t); intros i ?
  end.

Lemma wadd_0_l (P : point) : Wadd None P = P.
Proof. reflexivity. Qed.

Lemma wadd_0_r (P : point) : Wadd P None = P.
Proof. destruct P as [[? ?]|]; reflexivity. Qed.

Lemma wadd_comm (P Q : point) : Wadd P Q = Wadd Q P.
Proof.
  pose proof two_nz as H2. unfold nonzero in H2.
  destruct P as [[x1 y1]|], Q as [[x2 y2]|]; cbn [wadd]; trivial.
  destruct (Keqb_spec x1 x2), (Keqb_spec x2 x1); try congruence;
  destruct (Keqb_spec y1 y2), (Keqb_spec y2 y1); try congruence;
  destruct (Keqb_spec y1 0), (Keqb_spec y2 0); try congruence; cbn; trivial.
  all: try (subst; reflexivity).
  all: neq_to_inv; elim_inv; f_equal; f_equal; nsatz_k.
Qed.

Lemma wneg_on_curve (P : point) : On_curve P -> On_curve (wneg P).
Proof.
  destruct P as [[x1 y1]|]; cbn [on_curve wneg]; trivial. intros HP. nsatz_k.
Qed.

Lemma wadd_neg (P : point) : Wadd P (wneg P) = None.
Proof.
  pose proof two_nz as H2. unfold nonzero in H2.
  destruct P as [[x1 y1]|]; cbn [wadd wneg]; trivial.
  destruct (Keqb_spec x1 x1); [|congruence].
  destruct (Keqb_spec y1 (- y1)) as [E|E]; cbn; trivial.
  destruct (Keqb_spec y1 0) as [E0|E0]; cbn; trivial.
  neq_to_inv. absurd_k.
Qed.


Lemma wadd_inv (x1 y1 x2 y2 : K) :
  On_curve (Some (x1, y1)) -> On_curve (Some (x2, y2)) ->
  Wadd_spec x1 y1 x2 y2 (Wadd (Some (x1, y1)) (Some (x2, y2))).
Proof.
  pose proof two_nz as H2. unfold nonzero in H2.
  cbn [on_curve wadd]. intros HP HQ.
  destruct (Keqb_spec x1 x2) as [Ex|Ex]; cbn [andb].
  - destruct (Keqb_spec y1 y2) as [Ey|Ey]; cbn [negb orb].
    + destruct (Keqb_spec y1 0) as [E0|E0].
      * apply WOpp; [congruence|]. nsatz_k.
      * apply (WDbl a _ _ _ _ (((1 + (1 + 1)) * x1 * x1 + a) * Kinv ((1 + 1) * y1)));
          try reflexivity; try congruence.
        neq_to_inv. elim_inv. nsatz_k.
    + apply WOpp; [congruence|]. neq_to_inv. nsatz_k.
  - apply (WAdd a _ _ _ _ ((y2 - y1) * Kinv (x2 - x1))); try reflexivity; trivial.
    neq_to_inv. elim_inv. nsatz_k.
Qed.

Lemma wadd_on_curve (P Q : point) :
  On_curve P -> On_curve Q -> On_curve (Wadd P Q).
Proof.
  pose proof two_nz as H2. unfold nonzero in H2.
  destruct P as [[x1 y1]|], Q as [[x2 y2]|]; trivial.
  intros HP HQ. destruct (wadd_inv x1 y1 x2 y2 HP HQ); cbn [on_curve] in *; trivial.
  all: neq_to_inv; nsatz_k.
Qed.


Lemma regular_inv (x y : K) :
  Regular (Some (x, y)) ->
  exists u v, u * y + v * ((1 + (1 + 1)) * x * x + a) = 1.
Proof.
  intros [H|H].
  - exists (Kinv y), 0. pose proof (Kinv_l y H) as E. nsatz.
  - exists 0, (Kinv ((1 + (1 + 1)) * x * x + a)).
    pose proof (Kinv_l _ H) as E. nsatz.
Qed.

Lemma wneg_regular (P : point) : Regular P -> Regular (wneg P).
Proof.
  destruct P as [[x1 y1]|]; cbn [regular wneg]; trivial.
  intros [H|H]; [left | right; exact H].
  intros E. apply H. nsatz.
Qed.

(** On a curve with a non-zero discriminant every point is regular. *)
Lemma disc_regular (P : point) :
  nonzero ((1 + 1) * (1 + 1) * a * a * a
           + (1 + (1 + 1)) * (1 + (1 + 1)) * (1 + (1 + 1)) * b * b) ->
  On_curve P -> Regular P.
Proof.
  pose proof two_nz as H2. pose proof three_nz as H3.
  unfold nonzero in H2, H3. unfold nonzero. intros Hd.
  destruct P as [[x1 y1]|]; cbn [regular on_curve]; trivial. intros HP.
  destruct (Keqb_spec y1 0) as [E0|N0]; [|left; exact N0].
  right. intros E. neq_to_inv. absurd_k.
Qed.

Lemma wadd_regular (P Q : point) :
  On_curve P -> On_curve Q -> Regular P -> Regular Q -> Regular (Wadd P Q).
Proof.
  pose proof two_nz as H2. pose proof three_nz as H3.
  unfold nonzero in H2, H3.
  destruct P as [[x1 y1]|]; [|trivial].
  destruct Q as [[x2 y2]|]; [|trivial].
  intros HP HQ RP RQ.
  destruct (regular_inv _ _ RP) as [u1 [v1 Hr1]].
  destruct (regular_inv _ _ RQ) as [u2 [v2 Hr2]].
  clear RP RQ.
  destruct (wadd_inv x1 y1 x2 y2 HP HQ) as [ | l x3 y3 | l x3 y3 ];
    cbn [regular on_curve] in *; trivial.
  all: destruct (Keqb_spec y3 0) as [E0|N0]; [|left; exact N0].
  all: right; intros E.
  all: neq_to_inv.
  all: absurd_k.
Qed.

Ltac leaf :=
  match goal with
  | |- None = None => reflexivity
  | |- Some _ = None => absurd_k
  | |- None = Some _ => absurd_k
  | |- Some (?x, ?y) = Some (?u, ?v) =>
      assert (x = u) by nsatz_k; assert (y = v) by nsatz_k; congruence
  end.

(** Associativity on the regular points.  Each of the four additions
    is one of three kinds ([wadd_inv]); every combination is a polynomial
    identity, or an impossible case, for [nsatz]. *)
Lemma wadd_assoc (P Q R : point) :
  On_curve P -> On_curve Q -> On_curve R ->
  Regular P -> Regular Q -> Regular R ->
  Wadd (Wadd P Q) R = Wadd P (Wadd Q R).
Proof.
  pose proof two_nz as H2. pose proof three_nz as H3.
  unfold nonzero in H2, H3.
  destruct P as [[x1 y1]|]; [|reflexivity].
  destruct Q as [[x2 y2]|]; [|reflexivity].
  destruct R as [[x3 y3]|]; [|intros; now rewrite !wadd_0_r].
  intros HP HQ HR RP RQ RR.
  destruct (regular_inv _ _ RP) as [u1 [v1 Hr1]].
  destruct (regular_inv _ _ RQ) as [u2 [v2 Hr2]].
  destruct (regular_inv _ _ RR) as [u3 [v3 Hr3]].
  clear RP RQ RR.
  pose proof (wadd_on_curve _ _ HP HQ) as HPQ.
  pose proof (wadd_on_curve _ _ HQ HR) as HQR.
  destruct (wadd_inv x1 y1 x2 y2 HP HQ) as [ | l1 x4 y4 | l1 x4 y4 ];
  destruct (wadd_inv x2 y2 x3 y3 HQ HR) as [ | l2 x5 y5 | l2 x5 y5 ].
  all: cbn [wadd];
    try fold (Wadd (Some (x1, y1)) (Some (x5, y5)));
    try fold (Wadd (Some (x4, y4)) (Some (x3, y3))).
  all: try (destruct (wadd_inv x1 y1 x5 y5 HP HQR) as [ | l3 x6 y6 | l3 x6 y6 ]).
  all: try (destruct (wadd_inv x4 y4 x3 y3 HPQ HR) as [ | l4 x7 y7 | l4 x7 y7 ]).
  all: cbn [on_curve] in *.
  all: neq_to_inv.
  all: try subst x6 y6; try subst x7 y7.
  all: leaf.
Qed.

End WeierstrassLaws.

(** ** Results stay in the data model *)

Lemma zero_reduced (ec : EC.t) : 2 < EC.q ec -> reduced ec (EC.zero ec).
Proof. intros Hq. unfold reduced, EC.zero. cbn [x y]. lia. Qed.

Lemma padd_reduced (ec : EC.t) (p1 p2 : Coord) :
  2 < EC.q ec -> reduced ec p1 -> reduced ec p2 -> reduced ec (padd ec p1 p2).
Proof.
  intros Hq R1 R2. unfold padd.
  destruct (Coord_eqb p1 (EC.zero ec)); trivial.
  destruct (Coord_eqb p2 (EC.zero ec)); trivial.
  destruct ((x p1 =? x p2) && (negb (y p1 =? y p2) || (y p1 =? 0)));
    [now apply zero_reduced|].
  cbv zeta. unfold reduced. cbn [x y]. split; apply Z.mod_pos_bound; lia.
Qed.

Lemma pneg_reduced (ec : EC.t) (p : Coord) :
  2 < EC.q ec -> reduced ec p -> reduced ec (pneg ec p).
Proof.
  intros Hq [Hx Hy]. unfold reduced, pneg. cbn [x y].
  split; [assumption | apply Z.mod_pos_bound; lia].
Qed.

(** ** [EC.add] computes the group law of the field [Z/q] *)

Section Bridge.
Variable ec : EC.t.
Hypothesis Hc : constructed ec.
Hypothesis Hp : Z.prime (EC.q ec).

#[local] Abbreviation q := (EC.q ec).
#[local] Abbreviation F := (Zmod (EC.q ec)).
#[local] Abbreviation fe := (Zmod.of_Z (EC.q ec)).
#[local] Abbreviation A := (Zmod.of_Z (EC.q ec) (EC.a ec)).
#[local] Abbreviation B := (Zmod.of_Z (EC.q ec) (EC.b ec)).
#[local] Abbreviation Wadd :=
  (@wadd F Zmod.zero Zmod.one Zmod.add Zmod.mul Zmod.sub Zmod.opp
     (ZmodNsatz.Ring_ops_Zmod q) Zmod.inv Zmod.eqb A).
#[local] Abbreviation Wneg :=
  (@wneg F Zmod.zero Zmod.one Zmod.add Zmod.mul Zmod.sub Zmod.opp
     (ZmodNsatz.Ring_ops_Zmod q)).
#[local] Abbreviation On_curve :=
  (@on_curve F Zmod.zero Zmod.one Zmod.add Zmod.mul Zmod.sub Zmod.opp
     (ZmodNsatz.Ring_ops_Zmod q) A B).

Lemma q_gt_2 : 2 < q.
Proof. destruct Hc as [_ [_ H]]. exact H. Qed.

Lemma of_eq_iff (u v : Z) :
  0 <= u < q -> 0 <= v < q -> (fe u = fe v <-> u = v).
Proof.
  intros Hu Hv. rewrite Zmod.of_Z_inj, !Z.mod_small by assumption. reflexivity.
Qed.

Lemma of_eqb (u v : Z) :
  0 <= u < q -> 0 <= v < q -> Zmod.eqb (fe u) (fe v) = (u =? v).
Proof.
  intros Hu Hv. destruct (Z.eqb_spec u v) as [->|Hne].
  - apply Zmod.eqb_refl.
  - destruct (Zmod.eqb (fe u) (fe v)) eqn:E; trivial.
    apply Zmod.eqb_eq, of_eq_iff in E; trivial. contradiction.
Qed.

Lemma of_eqb_zero (u : Z) :
  0 <= u < q -> Zmod.eqb (fe u) Zmod.zero = (u =? 0).
Proof.
  intros Hu. rewrite <- (Zmod.of_Z_0 q). apply of_eqb; trivial.
  pose proof q_gt_2. lia.
Qed.

Lemma of_zero_iff (u : Z) : fe u = Zmod.zero <-> u mod q = 0.
Proof.
  rewrite <- (Zmod.of_Z_0 q), Zmod.of_Z_inj, Z.mod_0_l; [reflexivity|].
  pose proof q_gt_2. lia.
Qed.

Lemma to_point_zero : to_point ec (EC.zero ec) = None.
Proof. reflexivity. Qed.

Lemma to_point_nonzero (p : Coord) :
  p <> EC.zero ec -> to_point ec p = Some (fe (x p), fe (y p)).
Proof.
  intros Hp0. unfold to_point.
  destruct (Coord_eqb_spec p (EC.zero ec)); [contradiction | reflexivity].
Qed.

Lemma to_point_none (p : Coord) : to_point ec p = None -> p = EC.zero ec.
Proof.
  unfold to_point. destruct (Coord_eqb_spec p (EC.zero ec)); [trivial | discriminate].
Qed.

Lemma to_point_inj (p1 p2 : Coord) :
  reduced ec p1 -> reduced ec p2 -> to_point ec p1 = to_point ec p2 -> p1 = p2.
Proof.
  intros [Hx1 Hy1] [Hx2 Hy2]. unfold to_point.
  destruct (Coord_eqb_spec p1 (EC.zero ec)) as [E1|N1],
           (Coord_eqb_spec p2 (EC.zero ec)) as [E2|N2];
    try discriminate.
  { intros _. now rewrite E1, E2. }
  intros E.
  pose proof (f_equal (fun o => match o with
                                | Some (u, _) => u
                                | None => Zmod.zero
                                end) E) as Ex.
  pose proof (f_equal (fun o => match o with
                                | Some (_, v) => v
                                | None => Zmod.zero
                                end) E) as Ey.
  cbn beta iota in Ex, Ey.
  apply of_eq_iff in Ex, Ey; trivial.
  destruct p1 as [x1 y1], p2 as [x2 y2]; cbn [x y] in Ex, Ey. now rewrite Ex, Ey.
Qed.

Lemma of_curve_eq (u v : Z) :
  fe (v ^ 2) = fe (u ^ 3 + EC.a ec * u + EC.b ec)
  <-> Zmod.mul (fe v) (fe v)
      = Zmod.add (Zmod.add (Zmod.mul (Zmod.mul (fe u) (fe u)) (fe u))
                   (Zmod.mul A (fe u))) B.
Proof.
  replace (v ^ 2) with (v * v) by lia.
  replace (u ^ 3) with (u * u * u) by lia.
  rewrite !Zmod.of_Z_add, !Zmod.of_Z_mul. reflexivity.
Qed.

Lemma on_curve_some (u v : F) :
  On_curve (Some (u, v))
  <-> Zmod.mul v v
      = Zmod.add (Zmod.add (Zmod.mul (Zmod.mul u u) u) (Zmod.mul A u)) B.
Proof. reflexivity. Qed.

Lemma valid_on_curve (p : Coord) :
  valid ec p = true <-> On_curve (to_point ec p).
Proof.
  unfold valid, to_point.
  destruct (Coord_eqb_spec p (EC.zero ec)) as [E|N]; cbn [orb];
    [cbn [on_curve]; tauto|].
  rewrite on_curve_some, Z.eqb_eq, <- Zmod.of_Z_inj. apply of_curve_eq.
Qed.

Lemma zero_off_curve : ~ On_curve (Some (Zmod.zero, Zmod.zero)).
Proof.
  rewrite on_curve_some, <- (Zmod.of_Z_0 q), <- of_curve_eq.
  rewrite Zmod.of_Z_inj.
  replace (0 ^ 2) with 0 by reflexivity.
  replace (0 ^ 3 + EC.a ec * 0 + EC.b ec) with (EC.b ec) by lia.
  destruct Hc as [_ [Hb _]]. rewrite Z.mod_0_l, Z.mod_small by lia. lia.
Qed.

Lemma prime_not_divide (n : Z) : 0 < n < q -> n mod q <> 0.
Proof. intros H. rewrite Z.mod_small by lia. lia. Qed.

Lemma field_inv_l (u : F) : u <> Zmod.zero -> Zmod.mul (Zmod.inv u) u = Zmod.one.
Proof. intros H. now apply Zmod.mul_inv_same_l_prime. Qed.

(** The value [inv] returns is the inverse in the field. *)
Lemma inv_bridge (n : Z) : n mod q <> 0 -> fe (inv_val n q) = Zmod.inv (fe n).
Proof.
  intros Hn. pose proof q_gt_2 as Hq.
  destruct (inv_val_spec n q ltac:(lia)) as [_ Hs].
  assert (Hg : Z.gcd n q = 1).
  { rewrite Z.gcd_comm. apply Z.coprime_prime_l; trivial.
    intros Hd. apply Hn. apply Z.mod_divide; [lia | exact Hd]. }
  rewrite Hg in Hs.
  assert (E : Zmod.mul (fe n) (fe (inv_val n q)) = Zmod.one).
  { rewrite <- Zmod.of_Z_mul, <- Zmod.of_Z_1. now apply Zmod.of_Z_inj. }
  assert (Hnz : fe n <> Zmod.zero) by (now rewrite of_zero_iff).
  rewrite <- (Zmod.mul_1_l (fe (inv_val n q))), <- (field_inv_l (fe n) Hnz).
  rewrite <- Zmod.mul_assoc, E. 
  rewrite Zmod.mul_comm. apply Zmod.mul_1_l.
Qed.

Lemma Wadd_affine (u1 v1 u2 v2 : F) :
  Wadd (Some (u1, v1)) (Some (u2, v2))
  = if Zmod.eqb u1 u2 && (negb (Zmod.eqb v1 v2) || Zmod.eqb v1 Zmod.zero)
    then None
    else
      let l :=
        if Zmod.eqb u1 u2
        then Zmod.mul
               (Zmod.add
                  (Zmod.mul
                     (Zmod.mul (Zmod.add Zmod.one (Zmod.add Zmod.one Zmod.one)) u1)
                     u1)
                  A)
               (Zmod.inv (Zmod.mul (Zmod.add Zmod.one Zmod.one) v1))
        else Zmod.mul (Zmod.sub v2 v1) (Zmod.inv (Zmod.sub u2 u1)) in
      let x3 := Zmod.sub (Zmod.sub (Zmod.mul l l) u1) u2 in
      Some (x3, Zmod.sub (Zmod.mul l (Zmod.sub u1 x3)) v1).
Proof. reflexivity. Qed.

Lemma fe_two : fe 2 = Zmod.add Zmod.one Zmod.one.
Proof. now rewrite <- !Zmod.of_Z_1, <- Zmod.of_Z_add. Qed.

Lemma fe_three : fe 3 = Zmod.add Zmod.one (Zmod.add Zmod.one Zmod.one).
Proof. now rewrite <- !Zmod.of_Z_1, <- !Zmod.of_Z_add. Qed.

Lemma sub_mod_nz (u v : Z) :
  0 <= u < q -> 0 <= v < q -> u <> v -> (v - u) mod q <> 0.
Proof.
  intros Hu Hv Hne H. pose proof q_gt_2.
  apply Z.mod_divide in H; [|lia]. destruct H as [k Hk].
  destruct (Z.lt_trichotomy k 0) as [Hk0|[Hk0|Hk0]]; nia.
Qed.

Lemma double_mod_nz (v : Z) : 0 < v < q -> (2 * v) mod q <> 0.
Proof.
  intros Hv H. pose proof q_gt_2.
  apply Z.mod_divide in H; [|lia].
  apply Z.divide_prime_mul in H; trivial.
  destruct H as [H|H]; apply Z.divide_pos_le in H; lia.
Qed.

Lemma slope_tangent (u v : Z) :
  0 < v < q ->
  fe (((3 * u * u + EC.a ec) * inv_val (2 * v) q) mod q)
  = Zmod.mul
      (Zmod.add
         (Zmod.mul (Zmod.mul (Zmod.add Zmod.one (Zmod.add Zmod.one Zmod.one)) (fe u))
            (fe u))
         A)
      (Zmod.inv (Zmod.mul (Zmod.add Zmod.one Zmod.one) (fe v))).
Proof.
  intros Hv.
  rewrite Zmod.of_Z_mod, Zmod.of_Z_mul, Zmod.of_Z_add, !Zmod.of_Z_mul.
  rewrite inv_bridge by (now apply double_mod_nz).
  now rewrite Zmod.of_Z_mul, fe_two, fe_three.
Qed.

Lemma slope_chord (u1 v1 u2 v2 : Z) :
  0 <= u1 < q -> 0 <= u2 < q -> u1 <> u2 ->
  fe (((v2 - v1) * inv_val (u2 - u1) q) mod q)
  = Zmod.mul (Zmod.sub (fe v2) (fe v1)) (Zmod.inv (Zmod.sub (fe u2) (fe u1))).
Proof.
  intros H1 H2 Hne.
  rewrite Zmod.of_Z_mod, Zmod.of_Z_mul, Zmod.of_Z_sub.
  rewrite inv_bridge by (now apply sub_mod_nz).
  now rewrite Zmod.of_Z_sub.
Qed.

Lemma two_nz_q :
  @nonzero F Zmod.zero Zmod.one Zmod.add Zmod.mul Zmod.sub Zmod.opp
    (ZmodNsatz.Ring_ops_Zmod q) (Zmod.add Zmod.one Zmod.one).
Proof.
  unfold nonzero. rewrite <- fe_two. change Algebra_syntax.zero with (@Zmod.zero q).
  rewrite of_zero_iff. pose proof q_gt_2. rewrite Z.mod_small by lia. lia.
Qed.

Lemma to_point_pneg (p : Coord) :
  reduced ec p -> to_point ec (pneg ec p) = Wneg (to_point ec p).
Proof.
  intros [Hx Hy]. pose proof q_gt_2 as Hq. unfold to_point at 2.
  destruct (Coord_eqb_spec p (EC.zero ec)) as [E|N].
  { rewrite E. reflexivity. }
  rewrite to_point_nonzero.
  - unfold pneg. cbn [x y wneg]. now rewrite Zmod.of_Z_mod, Zmod.of_Z_opp.
  - unfold pneg, EC.zero. intros E. injection E as Ex Ey.
    apply N. destruct p as [px py]. cbn [x y] in *. unfold EC.zero. f_equal; trivial.
    apply Z.mod_divide in Ey; [|lia]. destruct Ey as [k Hk].
    destruct (Z.lt_trichotomy k 0) as [Hk0|[Hk0|Hk0]]; nia.
Qed.

Lemma pneg_valid (p : Coord) : valid ec p = true -> valid ec (pneg ec p) = true.
Proof.
  unfold valid, pneg. cbn [x y]. intros V. apply orb_true_iff in V.
  pose proof q_gt_2 as Hq.
  destruct V as [V|V].
  - destruct (Coord_eqb_spec p (EC.zero ec)) as [E|]; [|discriminate].
    rewrite E. reflexivity.
  - apply orb_true_iff. right. apply Z.eqb_eq in V. apply Z.eqb_eq.
    rewrite <- V, (Z.pow_2_r (- y p mod q)), <- Z.mul_mod by lia.
    f_equal. lia.
Qed.

(** Closure and associativity below go through certificates that
    divide by 3; the field [Z/3] is dealt with separately. *)
Hypothesis Hq3 : q <> 3.

Lemma three_nz_q :
  @nonzero F Zmod.zero Zmod.one Zmod.add Zmod.mul Zmod.sub Zmod.opp
    (ZmodNsatz.Ring_ops_Zmod q) (Zmod.add Zmod.one (Zmod.add Zmod.one Zmod.one)).
Proof.
  unfold nonzero. rewrite <- fe_three. change Algebra_syntax.zero with (@Zmod.zero q).
  rewrite of_zero_iff. pose proof q_gt_2. rewrite Z.mod_small by lia. lia.
Qed.

Lemma Wadd_closed (P Q : @point F) :
  On_curve P -> On_curve Q -> On_curve (Wadd P Q).
Proof.
  exact (wadd_on_curve (Kid := ZmodNsatz.Integral_domain_Zmod q Hp)
           Zmod.inv Zmod.eqb A B field_inv_l (@Zmod.eqb_eq q)
           two_nz_q three_nz_q P Q).
Qed.

(** [EC.add] on valid points of the data model is the group law. *)
Lemma to_point_padd (p1 p2 : Coord) :
  reduced ec p1 -> valid ec p1 = true ->
  reduced ec p2 -> valid ec p2 = true ->
  to_point ec (padd ec p1 p2) = Wadd (to_point ec p1) (to_point ec p2).
Proof.
  intros [Hx1 Hy1] V1 [Hx2 Hy2] V2.
  pose proof (Wadd_closed _ _ (proj1 (valid_on_curve p1) V1)
                (proj1 (valid_on_curve p2) V2)) as Hcl.
  unfold padd.
  destruct (Coord_eqb_spec p1 (EC.zero ec)) as [E1|N1].
  { rewrite E1, to_point_zero. reflexivity. }
  destruct (Coord_eqb_spec p2 (EC.zero ec)) as [E2|N2].
  { rewrite E2, to_point_zero. destruct (to_point ec p1) as [[? ?]|]; reflexivity. }
  rewrite (to_point_nonzero p1 N1), (to_point_nonzero p2 N2) in *.
  rewrite Wadd_affine in *.
  rewrite !of_eqb, of_eqb_zero in * by assumption.
  destruct ((x p1 =? x p2) && (negb (y p1 =? y p2) || (y p1 =? 0))) eqn:Eb;
    [reflexivity|].
  cbv zeta in *.
  set (l := if x p1 =? x p2
            then ((3 * x p1 * x p1 + EC.a ec) * inv_val (2 * y p1) q) mod q
            else ((y p2 - y p1) * inv_val (x p2 - x p1) q) mod q) in *.
  set (L := if x p1 =? x p2 then _ else _) in *.
  assert (EL : fe l = L).
  { subst l L. destruct (Z.eqb_spec (x p1) (x p2)) as [Ex|Ex].
    - cbn [andb] in Eb. apply orb_false_iff in Eb. destruct Eb as [_ Ey0].
      apply Z.eqb_neq in Ey0. apply slope_tangent. lia.
    - now apply slope_chord. }
  set (x3 := (l * l - x p1 - x p2) mod q) in *.
  set (y3 := (l * (x p1 - x3) - y p1) mod q).
  assert (EX : fe x3 = Zmod.sub (Zmod.sub (Zmod.mul L L) (fe (x p1))) (fe (x p2))).
  { subst x3. now rewrite Zmod.of_Z_mod, !Zmod.of_Z_sub, Zmod.of_Z_mul, EL. }
  assert (EY : fe y3 = Zmod.sub (Zmod.mul L (Zmod.sub (fe (x p1)) (fe x3))) (fe (y p1))).
  { subst y3. now rewrite Zmod.of_Z_mod, !Zmod.of_Z_sub, Zmod.of_Z_mul, Zmod.of_Z_sub, EL. }
  rewrite <- EX in *. rewrite <- EY in *.
  apply to_point_nonzero.
  intros E0. apply zero_off_curve.
  injection E0 as E0x E0y. fold x3 in E0x. fold y3 in E0y.
  rewrite E0x, E0y in Hcl. rewrite !Zmod.of_Z_0 in Hcl. exact Hcl.
Qed.

Lemma padd_valid_field (p1 p2 : Coord) :
  reduced ec p1 -> valid ec p1 = true ->
  reduced ec p2 -> valid ec p2 = true ->
  valid ec (padd ec p1 p2) = true.
Proof.
  intros R1 V1 R2 V2. apply valid_on_curve.
  rewrite to_point_padd by assumption.
  apply Wadd_closed; now apply valid_on_curve.
Qed.

Lemma padd_comm_field (p1 p2 : Coord) :
  reduced ec p1 -> valid ec p1 = true ->
  reduced ec p2 -> valid ec p2 = true ->
  padd ec p1 p2 = padd ec p2 p1.
Proof.
  intros R1 V1 R2 V2.
  apply to_point_inj; try (apply padd_reduced; trivial; apply q_gt_2).
  rewrite !to_point_padd by assumption.
  exact (wadd_comm (Kid := ZmodNsatz.Integral_domain_Zmod q Hp)
           Zmod.inv Zmod.eqb A field_inv_l (@Zmod.eqb_eq q) two_nz_q _ _).
Qed.

Lemma padd_pneg_field (p : Coord) :
  reduced ec p -> valid ec p = true -> padd ec p (pneg ec p) = EC.zero ec.
Proof.
  intros R V. apply to_point_none.
  rewrite to_point_padd;
    try assumption; try (apply pneg_reduced; trivial; apply q_gt_2);
    try (now apply pneg_valid).
  rewrite to_point_pneg by assumption.
  exact (wadd_neg (Kid := ZmodNsatz.Integral_domain_Zmod q Hp)
           Zmod.inv Zmod.eqb A field_inv_l (@Zmod.eqb_eq q) two_nz_q _).
Qed.

#[local] Abbreviation Regular :=
  (@regular F Zmod.zero Zmod.one Zmod.add Zmod.mul Zmod.sub Zmod.opp
     (ZmodNsatz.Ring_ops_Zmod q) A).

Lemma regular_some (u v : F) :
  Regular (Some (u, v))
  <-> v <> Zmod.zero
      \/ ((1 + (1 + 1)) * u * u + A)%Zmod <> Zmod.zero.
Proof. reflexivity. Qed.

Lemma regular_at_zero : regular_at ec (EC.zero ec).
Proof.
  right. cbn [x y EC.zero]. destruct Hc as [Ha _].
  rewrite Z.mod_small by lia. lia.
Qed.

(** [regular_at] is regularity in the field. *)
Lemma regular_bridge (p : Coord) :
  reduced ec p -> (Regular (to_point ec p) <-> regular_at ec p).
Proof.
  intros [Hx Hy]. unfold to_point.
  destruct (Coord_eqb_spec p (EC.zero ec)) as [E|N].
  { rewrite E. split; [intros _; apply regular_at_zero | intros _; exact I]. }
  rewrite regular_some. unfold regular_at.
  rewrite <- fe_three, <- !Zmod.of_Z_mul, <- Zmod.of_Z_add, !of_zero_iff.
  rewrite (Z.mod_small (y p)) by assumption. reflexivity.
Qed.

Lemma padd_regular_field (p1 p2 : Coord) :
  reduced ec p1 -> valid ec p1 = true -> regular_at ec p1 ->
  reduced ec p2 -> valid ec p2 = true -> regular_at ec p2 ->
  regular_at ec (padd ec p1 p2).
Proof.
  intros R1 V1 G1 R2 V2 G2. pose proof q_gt_2 as Hq.
  apply regular_bridge; [now apply padd_reduced|].
  rewrite to_point_padd by assumption.
  apply (wadd_regular (Kid := ZmodNsatz.Integral_domain_Zmod q Hp)
           Zmod.inv Zmod.eqb A B field_inv_l (@Zmod.eqb_eq q)
           two_nz_q three_nz_q);
    try (now apply valid_on_curve); now apply regular_bridge.
Qed.

Lemma padd_assoc_field (p1 p2 p3 : Coord) :
  reduced ec p1 -> valid ec p1 = true -> regular_at ec p1 ->
  reduced ec p2 -> valid ec p2 = true -> regular_at ec p2 ->
  reduced ec p3 -> valid ec p3 = true -> regular_at ec p3 ->
  padd ec (padd ec p1 p2) p3 = padd ec p1 (padd ec p2 p3).
Proof.
  intros R1 V1 G1 R2 V2 G2 R3 V3 G3. pose proof q_gt_2 as Hq.
  assert (R12 : reduced ec (padd ec p1 p2)) by (now apply padd_reduced).
  assert (R23 : reduced ec (padd ec p2 p3)) by (now apply padd_reduced).
  assert (V12 : valid ec (padd ec p1 p2) = true) by (now apply padd_valid_field).
  assert (V23 : valid ec (padd ec p2 p3) = true) by (now apply padd_valid_field).
  apply to_point_inj; try (now apply padd_reduced).
  rewrite !to_point_padd by assumption.
  apply (wadd_assoc (Kid := ZmodNsatz.Integral_domain_Zmod q Hp)
           Zmod.inv Zmod.eqb A B field_inv_l (@Zmod.eqb_eq q)
           two_nz_q three_nz_q);
    try (now apply valid_on_curve); now apply regular_bridge.
Qed.

Lemma disc_nz_q :
  nonsingular ec ->
  @nonzero F Zmod.zero Zmod.one Zmod.add Zmod.mul Zmod.sub Zmod.opp
    (ZmodNsatz.Ring_ops_Zmod q)
    ((1 + 1) * (1 + 1) * A * A * A
     + (1 + (1 + 1)) * (1 + (1 + 1)) * (1 + (1 + 1)) * B * B)%Zmod.
Proof.
  intros Hns.
  unfold nonzero. rewrite <- fe_three, <- fe_two, <- !Zmod.of_Z_mul, <- Zmod.of_Z_add.
  change Algebra_syntax.zero with (@Zmod.zero q). rewrite of_zero_iff.
  intros H. apply Hns. rewrite <- H. f_equal. lia.
Qed.

(** With a non-zero discriminant every valid point is regular. *)
Lemma nonsingular_regular_field (p : Coord) :
  nonsingular ec -> reduced ec p -> valid ec p = true -> regular_at ec p.
Proof.
  intros Hns R V. apply regular_bridge; trivial.
  apply (disc_regular (Kid := ZmodNsatz.Integral_domain_Zmod q Hp)
           Zmod.inv Zmod.eqb A B field_inv_l (@Zmod.eqb_eq q)
           two_nz_q three_nz_q _ (disc_nz_q Hns)).
  now apply valid_on_curve.
Qed.

End Bridge.

(** ** The field [Z/3], by enumeration *)


Lemma laws3_ok : forallb laws3 curves3 = true.
Proof. vm_compute. reflexivity. Qed.

Lemma in_curves3 (ec : EC.t) : constructed ec -> EC.q ec = 3 -> In ec curves3.
Proof.
  destruct ec as [a b q]. unfold constructed. cbn [EC.a EC.b EC.q].
  intros [Ha [Hb _]] ->.
  assert (Ea : a = 1 \/ a = 2) by lia. assert (Eb : b = 1 \/ b = 2) by lia.
  destruct Ea as [-> | ->], Eb as [-> | ->]; cbn; auto 6.
Qed.

Lemma in_points3 (ec : EC.t) (p : Coord) :
  EC.q ec = 3 -> reduced ec p -> In p points3.
Proof.
  destruct p as [u v]. unfold reduced. cbn [x y]. intros -> [Hu Hv].
  assert (Eu : u = 0 \/ u = 1 \/ u = 2) by lia.
  assert (Ev : v = 0 \/ v = 1 \/ v = 2) by lia.
  destruct Eu as [-> | [-> | ->]], Ev as [-> | [-> | ->]]; cbn; auto 12.
Qed.

Section Three.
Variable ec : EC.t.
Hypothesis Hc : constructed ec.
Hypothesis Hq : EC.q ec = 3.

Lemma laws3_at (p1 : Coord) :
  reduced ec p1 -> valid ec p1 = true ->
  padd ec p1 (pneg ec p1) = EC.zero ec
  /\ forall p2, reduced ec p2 -> valid ec p2 = true ->
       valid ec (padd ec p1 p2) = true
       /\ padd ec p1 p2 = padd ec p2 p1
       /\ forall p3, reduced ec p3 -> valid ec p3 = true ->
            padd ec (padd ec p1 p2) p3 = padd ec p1 (padd ec p2 p3).
Proof.
  intros R1 V1.
  pose proof laws3_ok as H. rewrite forallb_forall in H.
  specialize (H ec (in_curves3 ec Hc Hq)). unfold laws3 in H.
  rewrite forallb_forall in H. specialize (H p1 (in_points3 ec p1 Hq R1)).
  rewrite V1 in H. cbn [implb] in H. apply andb_true_iff in H. destruct H as [Hn H].
  split; [now destruct (Coord_eqb_spec (padd ec p1 (pneg ec p1)) (EC.zero ec))|].
  intros p2 R2 V2.
  rewrite forallb_forall in H. specialize (H p2 (in_points3 ec p2 Hq R2)).
  rewrite V2 in H. cbn [implb] in H.
  apply andb_true_iff in H. destruct H as [H H3].
  apply andb_true_iff in H. destruct H as [Hv Hcomm].
  split; [exact Hv|].
  split; [now destruct (Coord_eqb_spec (padd ec p1 p2) (padd ec p2 p1))|].
  intros p3 R3 V3.
  rewrite forallb_forall in H3. specialize (H3 p3 (in_points3 ec p3 Hq R3)).
  rewrite V3 in H3. cbn [implb] in H3.
  now destruct (Coord_eqb_spec (padd ec (padd ec p1 p2) p3)
                  (padd ec p1 (padd ec p2 p3))).
Qed.

End Three.

(** ** The group of valid points of a curve over a prime field *)

Section Group.
Variable ec : EC.t.
Hypothesis Hc : constructed ec.
Hypothesis Hp : Z.prime (EC.q ec).

Lemma curve_point_pt (p : Coord) : curve_point ec p <-> pt ec p.
Proof.
  unfold curve_point, pt. rewrite is_valid_ok.
  - split; intros [R V]; split; trivial; congruence.
  - destruct Hc as [_ [_ H]]. lia.
Qed.

Lemma pt_zero : pt ec (EC.zero ec).
Proof. split; [apply zero_reduced, q_gt_2, Hc | reflexivity]. Qed.

Lemma padd_zero_l (p : Coord) : padd ec (EC.zero ec) p = p.
Proof. reflexivity. Qed.

Lemma padd_zero_r (p : Coord) : padd ec p (EC.zero ec) = p.
Proof.
  unfold padd. destruct (Coord_eqb_spec p (EC.zero ec)) as [E|]; [now rewrite E|].
  reflexivity.
Qed.

Lemma pt_padd (p1 p2 : Coord) : pt ec p1 -> pt ec p2 -> pt ec (padd ec p1 p2).
Proof.
  intros [R1 V1] [R2 V2]. split; [apply padd_reduced; trivial; now apply q_gt_2|].
  destruct (Z.eq_dec (EC.q ec) 3) as [E3|N3].
  - now apply (laws3_at ec Hc E3 p1 R1 V1).
  - now apply padd_valid_field.
Qed.

Lemma pt_pneg (p : Coord) : pt ec p -> pt ec (pneg ec p).
Proof.
  intros [R V]. split; [apply pneg_reduced; trivial; now apply q_gt_2|].
  now apply pneg_valid.
Qed.

Lemma padd_comm (p1 p2 : Coord) : pt ec p1 -> pt ec p2 -> padd ec p1 p2 = padd ec p2 p1.
Proof.
  intros [R1 V1] [R2 V2].
  destruct (Z.eq_dec (EC.q ec) 3) as [E3|N3].
  - now apply (laws3_at ec Hc E3 p1 R1 V1).
  - now apply padd_comm_field.
Qed.

Lemma padd_pneg (p : Coord) : pt ec p -> padd ec p (pneg ec p) = EC.zero ec.
Proof.
  intros [R V].
  destruct (Z.eq_dec (EC.q ec) 3) as [E3|N3].
  - now apply (laws3_at ec Hc E3 p R V).
  - now apply padd_pneg_field.
Qed.

Lemma regular_at_three (p : Coord) : EC.q ec = 3 -> regular_at ec p.
Proof.
  intros E3. right. rewrite E3. destruct Hc as [Ha _]. rewrite E3 in Ha.
  replace (3 * x p * x p + EC.a ec) with (EC.a ec + x p * x p * 3) by lia.
  rewrite Z.mod_add, Z.mod_small by lia. lia.
Qed.

Lemma regular_point_zero : regular_point ec (EC.zero ec).
Proof. split; [apply pt_zero | now apply regular_at_zero]. Qed.

Lemma regular_point_padd (p1 p2 : Coord) : regular_point ec p1 -> regular_point ec p2 -> regular_point ec (padd ec p1 p2).
Proof.
  intros [H1 G1] [H2 G2]. split; [now apply pt_padd|].
  destruct (Z.eq_dec (EC.q ec) 3) as [E3|N3].
  - now apply regular_at_three.
  - destruct H1, H2. now apply padd_regular_field.
Qed.

Lemma regular_point_pneg (p : Coord) : regular_point ec p -> regular_point ec (pneg ec p).
Proof.
  intros [H G]. split; [now apply pt_pneg|].
  destruct H as [[Hx Hy] _]. pose proof (q_gt_2 ec Hc) as Hq.
  destruct G as [G|G]; [left | right; exact G].
  unfold pneg. cbn [y]. intros E.
  apply Z.mod_divide in E; [|lia]. destruct E as [k Hk].
  destruct (Z.lt_trichotomy k 0) as [Hk0|[Hk0|Hk0]]; nia.
Qed.

Lemma padd_assoc (p1 p2 p3 : Coord) :
  regular_point ec p1 -> regular_point ec p2 -> regular_point ec p3 ->
  padd ec (padd ec p1 p2) p3 = padd ec p1 (padd ec p2 p3).
Proof.
  intros [[R1 V1] G1] [[R2 V2] G2] [[R3 V3] G3].
  destruct (Z.eq_dec (EC.q ec) 3) as [E3|N3].
  - now apply (laws3_at ec Hc E3 p1 R1 V1).
  - now apply padd_assoc_field.
Qed.

(** On a curve with a non-zero discriminant every valid point is
    regular. *)
Lemma nonsingular_regular_point (p : Coord) : nonsingular ec -> pt ec p -> regular_point ec p.
Proof.
  intros Hns [R V]. split; [now split|].
  destruct (Z.eq_dec (EC.q ec) 3) as [E3|N3].
  - now apply regular_at_three.
  - now apply nonsingular_regular_field.
Qed.

(** The singular point of a singular curve is its own opposite. *)
Lemma singular_double (p : Coord) :
  ~ regular_at ec p -> p <> EC.zero ec /\ padd ec p p = EC.zero ec.
Proof.
  intros Hs.
  assert (Hy : y p = 0).
  { destruct (Z.eq_dec (y p) 0) as [E|N]; trivial. exfalso. apply Hs. now left. }
  assert (Hnz : p <> EC.zero ec).
  { intros E. apply Hs. rewrite E. now apply regular_at_zero. }
  split; trivial. unfold padd.
  destruct (Coord_eqb_spec p (EC.zero ec)); [contradiction|].
  now rewrite Z.eqb_refl, Hy.
Qed.

End Group.

(** ** Scalar multiples *)

(** Double-and-add against repeated addition, inside any set of points
    that holds the identity, is closed under [padd], and on which [padd]
    is associative. *)
Section Scalar.
Variable ec : EC.t.
Hypothesis Hc : constructed ec.
Variable G : Coord -> Prop.
Hypothesis G_zero : G (EC.zero ec).
Hypothesis G_padd : forall p1 p2, G p1 -> G p2 -> G (padd ec p1 p2).
Hypothesis G_assoc : forall p1 p2 p3, G p1 -> G p2 -> G p3 ->
  padd ec (padd ec p1 p2) p3 = padd ec p1 (padd ec p2 p3).

Lemma G_nsmul (p : Coord) (k : nat) : G p -> G (nsmul ec p k).
Proof.
  intros Hpt. induction k as [|k IH]; cbn [nsmul]; [exact G_zero|].
  now apply G_padd.
Qed.

Lemma nsmul_1 (p : Coord) : nsmul ec p 1 = p.
Proof. reflexivity. Qed.

Lemma nsmul_add (p : Coord) (m n : nat) :
  G p -> nsmul ec p (m + n) = padd ec (nsmul ec p m) (nsmul ec p n).
Proof.
  intros Hpt. induction n as [|n IH].
  - rewrite Nat.add_0_r. cbn [nsmul]. now rewrite padd_zero_r.
  - rewrite Nat.add_succ_r. cbn [nsmul]. rewrite IH.
    apply G_assoc; trivial; now apply G_nsmul.
Qed.

Lemma nsmul_double (p : Coord) (k : nat) :
  G p -> nsmul ec (padd ec p p) k = nsmul ec p (2 * k).
Proof.
  intros Hpt. induction k as [|k IH]; [reflexivity|].
  replace (2 * S k)%nat with (S (S (2 * k))) by lia.
  cbn [nsmul]. rewrite IH.
  symmetry. apply G_assoc; trivial. now apply G_nsmul.
Qed.

Lemma nsmul_mul (p : Coord) (m n : nat) :
  G p -> nsmul ec (nsmul ec p m) n = nsmul ec p (m * n).
Proof.
  intros Hpt. induction n as [|n IH].
  - now rewrite Nat.mul_0_r.
  - cbn [nsmul]. rewrite IH, Nat.mul_succ_r. symmetry. now apply nsmul_add.
Qed.

Lemma land_1 (n : Z) : Z.land n 1 = n mod 2.
Proof. change 1 with (Z.ones 1) at 1. now rewrite Z.land_ones by lia. Qed.

Lemma shiftr_1 (n : Z) : Z.shiftr n 1 = n / 2.
Proof. now rewrite Z.shiftr_div_pow2 by lia. Qed.

(** Invariant of the double-and-add loop: the result is [r] plus [n]
    times [m2]. *)
Lemma mul_loop_correct (fuel : nat) :
  forall n r m2,
    0 <= n < 2 ^ Z.of_nat fuel -> G r -> G m2 ->
    EC.mul_loop fuel ec r m2 n = Ok (padd ec r (nsmul ec m2 (Z.to_nat n))).
Proof.
  assert (Hq : 0 < EC.q ec) by (pose proof (q_gt_2 ec Hc); lia).
  induction fuel as [|fuel IH]; intros n r m2 Hn Hr Hm; cbn [EC.mul_loop].
  - assert (n = 0) by (cbn in Hn; lia). subst n.
    cbn. now rewrite padd_zero_r.
  - destruct (Z.ltb_spec 0 n) as [Hpos|Hz].
    2:{ assert (n = 0) by lia. subst n. cbn. now rewrite padd_zero_r. }
    rewrite !add_ok by assumption. rewrite land_1, shiftr_1.
    assert (Hhalf : 0 <= n / 2 < 2 ^ Z.of_nat fuel).
    { rewrite Nat2Z.inj_succ, Z.pow_succ_r in Hn by lia.
      split; [apply Z.div_pos; lia | apply Z.div_lt_upper_bound; lia]. }
    pose proof (Z.div_mod n 2 ltac:(lia)) as Hdm.
    pose proof (Z.mod_pos_bound n 2 ltac:(lia)) as Hmod.
    assert (Hm2 : G (padd ec m2 m2)) by (now apply G_padd).
    destruct (Z.eqb_spec (n mod 2) 1) as [Hodd|Heven]; cbn [bind].
    + rewrite IH; trivial; [|now apply G_padd].
      f_equal. rewrite nsmul_double by assumption.
      replace (Z.to_nat n) with (1 + 2 * Z.to_nat (n / 2))%nat by lia.
      rewrite nsmul_add, nsmul_1 by assumption.
      apply G_assoc; trivial. now apply G_nsmul.
    + rewrite IH; trivial.
      f_equal. rewrite nsmul_double by assumption.
      f_equal. f_equal. lia.
Qed.

(** [EC.mul] returns the [k]-fold multiple for every [k >= 0]. *)
Lemma mul_correct_in (p : Coord) (k : Z) :
  G p -> 0 <= k -> EC.mul ec p k = Ok (nsmul ec p (Z.to_nat k)).
Proof.
  intros Hpt Hk. unfold EC.mul.
  rewrite mul_loop_correct; trivial.
  split; [assumption | apply mul_fuel].
Qed.

End Scalar.

Section ScalarOnCurve.
Variable ec : EC.t.
Hypothesis Hc : constructed ec.
Hypothesis Hp : Z.prime (EC.q ec).

Lemma mul_correct_regular_point (p : Coord) (k : Z) :
  regular_point ec p -> 0 <= k -> EC.mul ec p k = Ok (nsmul ec p (Z.to_nat k)).
Proof.
  apply (mul_correct_in ec Hc (regular_point ec)).
  - now apply regular_point_zero.
  - now apply regular_point_padd.
  - now apply padd_assoc.
Qed.

(** The singular point of a singular curve spans a group of two
    elements. *)
Lemma mul_correct_singular (p : Coord) (k : Z) :
  ~ regular_at ec p -> 0 <= k -> EC.mul ec p k = Ok (nsmul ec p (Z.to_nat k)).
Proof.
  intros Hs Hk. destruct (singular_double ec Hc p Hs) as [Hnz Hdbl].
  apply (mul_correct_in ec Hc (fun r => r = EC.zero ec \/ r = p)); trivial;
    [now left | | | now right].
  - intros p1 p2 [-> | ->] [-> | ->]; rewrite ?padd_zero_l, ?padd_zero_r, ?Hdbl; auto.
  - intros p1 p2 p3 [-> | ->] [-> | ->] [-> | ->];
      rewrite ?padd_zero_l, ?padd_zero_r, ?Hdbl, ?padd_zero_l, ?padd_zero_r;
      reflexivity.
Qed.

Lemma regular_at_dec (p : Coord) : {regular_at ec p} + {~ regular_at ec p}.
Proof.
  unfold regular_at.
  destruct (Z.eq_dec (y p) 0) as [Ey|Ny]; [|left; now left].
  destruct (Z.eq_dec ((3 * x p * x p + EC.a ec) mod EC.q ec) 0) as [Ex|Nx];
    [|left; now right].
  right. intros [H|H]; contradiction.
Qed.

Lemma mul_correct (p : Coord) (k : Z) :
  pt ec p -> 0 <= k -> EC.mul ec p k = Ok (nsmul ec p (Z.to_nat k)).
Proof.
  intros Hpt Hk. destruct (regular_at_dec p) as [Hr|Hs].
  - apply mul_correct_regular_point; trivial. now split.
  - now apply mul_correct_singular.
Qed.

End ScalarOnCurve.

Lemma prime_7 : Z.prime 7.
Proof.
  split; [lia|]. intros n Hn [k Hk].
  assert (E : n = 2 \/ n = 3 \/ n = 4 \/ n = 5 \/ n = 6) by lia.
  destruct E as [-> | [-> | [-> | [-> | ->]]]]; lia.
Qed.

(** ** Scalar multiplication is repeated addition *)

(** C3. On a curve over a prime [q], for every valid point [p] of the data
    model and every [k >= 0], double-and-add [EC.mul] returns what [k]
    successive additions of [p] to the identity return; [mul p 0] is the
    identity and [mul p 1] is [p]. *)
Theorem mul_is_repeated_add (a b q : Z) (ec : EC.t) (p : Coord) (k : Z) :
  EC.init a b q = Ok ec -> Z.prime q ->
  curve_point ec p -> 0 <= k ->
  (exists m, EC.mul ec p k = Ok m /\ repeated_add ec p (Z.to_nat k) = Ok m)
  /\ EC.mul ec p 0 = Ok (EC.zero ec)
  /\ EC.mul ec p 1 = Ok p.
Proof.
  intros Hec Hp Hpt Hk.
  apply init_constructed in Hec. destruct Hec as [Eec Hc].
  assert (Eq : EC.q ec = q) by (now rewrite Eec). rewrite <- Eq in Hp.
  apply (curve_point_pt ec Hc) in Hpt.
  assert (Hq : 0 < EC.q ec) by (pose proof (q_gt_2 ec Hc); lia).
  split; [|split].
  - exists (nsmul ec p (Z.to_nat k)). split.
    + now apply mul_correct.
    + now apply repeated_add_ok.
  - reflexivity.
  - rewrite (mul_correct ec Hc Hp p 1 Hpt) by lia. reflexivity.
Qed.

Lemma mul_is_repeated_add_witness :
  let ec := EC.mk 1 1 7 in
  let p := mkCoord 0 1 in
  (exists m, EC.mul ec p 3 = Ok m /\ repeated_add ec p (Z.to_nat 3) = Ok m)
  /\ EC.mul ec p 0 = Ok (EC.zero ec)
  /\ EC.mul ec p 1 = Ok p.
Proof.
  apply (mul_is_repeated_add 1 1 7 (EC.mk 1 1 7) (mkCoord 0 1) 3).
  - reflexivity.
  - exact prime_7.
  - split; [unfold reduced; cbn; lia | reflexivity].
  - lia.
Defined.

(** ** Commutativity *)

(** C4. Over a prime field, [EC.add] is commutative on the valid points
    of the data model, the identity included: both orders return the same
    point. *)
Theorem add_commutative (a b q : Z) (ec : EC.t) (p1 p2 : Coord) :
  EC.init a b q = Ok ec -> Z.prime q ->
  curve_point ec p1 -> curve_point ec p2 ->
  exists s, EC.add ec p1 p2 = Ok s /\ EC.add ec p2 p1 = Ok s.
Proof.
  intros Hec Hp H1 H2.
  apply init_constructed in Hec. destruct Hec as [Eec Hc].
  assert (Eq : EC.q ec = q) by (now rewrite Eec). rewrite <- Eq in Hp.
  apply (curve_point_pt ec Hc) in H1, H2.
  assert (Hq : 0 < EC.q ec) by (pose proof (q_gt_2 ec Hc); lia).
  exists (padd ec p1 p2). rewrite !add_ok by assumption.
  split; [reflexivity|]. f_equal. symmetry. now apply padd_comm.
Qed.

Lemma add_commutative_witness :
  let ec := EC.mk 1 1 7 in
  exists s, EC.add ec (mkCoord 0 1) (mkCoord 2 5) = Ok s
            /\ EC.add ec (mkCoord 2 5) (mkCoord 0 1) = Ok s.
Proof.
  apply (add_commutative 1 1 7 (EC.mk 1 1 7) (mkCoord 0 1) (mkCoord 2 5)).
  - reflexivity.
  - exact prime_7.
  - split; [unfold reduced; cbn; lia | reflexivity].
  - split; [unfold reduced; cbn; lia | reflexivity].
Defined.

(** ** ElGamal round trip *)

Section RoundTrip.
Variable ec : EC.t.
Hypothesis Hc : constructed ec.
Hypothesis Hp : Z.prime (EC.q ec).
Hypothesis Hns : nonsingular ec.

(** Masking with [m] and unmasking with the same [m] gives the point
    back. *)
Lemma pt_regular_point (p : Coord) : pt ec p -> regular_point ec p.
Proof. now apply nonsingular_regular_point. Qed.

Lemma mask_unmask (p m : Coord) :
  pt ec p -> pt ec m -> padd ec (padd ec p m) (pneg ec m) = p.
Proof.
  intros Hpt Hm.
  rewrite padd_assoc, padd_pneg, padd_zero_r; trivial; try (now apply pt_regular_point).
  apply regular_point_pneg; trivial. now apply pt_regular_point.
Qed.

Lemma pt_nsmul (p : Coord) (k : nat) : pt ec p -> pt ec (nsmul ec p k).
Proof.
  intros Hpt. induction k as [|k IH]; cbn [nsmul].
  - now apply pt_zero.
  - now apply pt_padd.
Qed.

(** The two parties compute the same mask: [r] times the public key is
    [priv] times the nonce point. *)
Lemma shared_mask (g : Coord) (priv r : nat) :
  pt ec g ->
  nsmul ec (nsmul ec g priv) r = nsmul ec (nsmul ec g r) priv.
Proof.
  intros Hg.
  rewrite !(nsmul_mul ec (regular_point ec) (regular_point_zero ec Hc)
              (regular_point_padd ec Hc Hp) (padd_assoc ec Hc Hp))
    by (now apply pt_regular_point).
  now rewrite Nat.mul_comm.
Qed.

Lemma round_trip_values (eg : ElGamal.t) (p : Coord) (priv r : Z) :
  ElGamal.ec eg = ec -> pt ec (ElGamal.g eg) -> pt ec p ->
  0 <= priv -> 0 <= r ->
  (pub <- ElGamal.gen eg priv ;;
   c <- ElGamal.enc2 eg p pub r ;;
   ElGamal.dec eg c priv) = Ok p.
Proof.
  intros Eec Hg Hpt Hpriv Hr.
  assert (Hq : 0 < EC.q ec) by (pose proof (q_gt_2 ec Hc); lia).
  assert (Hq0 : EC.q ec <> 0) by lia.
  set (g := ElGamal.g eg) in *.
  set (pub := nsmul ec g (Z.to_nat priv)).
  set (c1 := nsmul ec g (Z.to_nat r)).
  set (m := nsmul ec pub (Z.to_nat r)).
  assert (Hpub : pt ec pub) by (now apply pt_nsmul).
  assert (Hc1 : pt ec c1) by (now apply pt_nsmul).
  assert (Hm : pt ec m) by (now apply pt_nsmul).
  assert (Hc2 : pt ec (padd ec p m)) by (now apply pt_padd).
  unfold ElGamal.gen, ElGamal.enc2, ElGamal.dec. rewrite Eec. fold g.
  rewrite (mul_correct ec Hc Hp g priv Hg Hpriv). fold pub. cbn [bind].
  rewrite !is_valid_ok by assumption.
  rewrite (proj2 Hpt), (proj2 Hpub). cbn [bind assert].
  rewrite (mul_correct ec Hc Hp g r Hg Hr). fold c1. cbn [bind].
  rewrite (mul_correct ec Hc Hp pub r Hpub Hr). fold m. cbn [bind].
  rewrite add_ok by assumption. cbn [bind].
  rewrite !is_valid_ok by assumption.
  rewrite (proj2 Hc1), (proj2 Hc2). cbn [bind assert].
  rewrite (mul_correct ec Hc Hp c1 priv Hc1 Hpriv). cbn [bind].
  rewrite neg_ok by assumption. cbn [bind].
  rewrite add_ok by assumption. f_equal.
  unfold c1. rewrite <- shared_mask by assumption. fold pub. fold m.
  now apply mask_unmask.
Qed.

End RoundTrip.

(** C1. On a curve of the data model (prime [q], non-zero discriminant)
    with a cipher built on a valid base point, for every valid point [p],
    every private key [priv] in [[1, n)] and every nonce [r >= 0]:
    decrypting with [priv] the pair that [enc2] returns for [p] under the
    public key [gen priv] gives [p] back. *)
Theorem elgamal_round_trip (a b q : Z) (ec : EC.t) (g : Coord) (eg : ElGamal.t)
    (p : Coord) (priv r : Z) :
  EC.init a b q = Ok ec -> Z.prime q -> nonsingular ec ->
  curve_point ec g -> ElGamal.init ec g = Ok eg ->
  curve_point ec p -> 1 <= priv < ElGamal.n eg -> 0 <= r ->
  (pub <- ElGamal.gen eg priv ;;
   c <- ElGamal.enc2 eg p pub r ;;
   ElGamal.dec eg c priv) = Ok p.
Proof.
  intros Hec Hp Hns Hg Heg Hpt Hpriv Hr.
  apply init_constructed in Hec. destruct Hec as [Eec Hc].
  assert (Eq : EC.q ec = q) by (now rewrite Eec). rewrite <- Eq in Hp.
  apply (curve_point_pt ec Hc) in Hg, Hpt.
  apply elgamal_init_inv in Heg. destruct Heg as [E1 [E2 _]].
  apply (round_trip_values ec Hc Hp Hns); trivial; try lia.
  now rewrite E2.
Qed.

Lemma elgamal_round_trip_witness :
  let ec := EC.mk 1 1 7 in
  let eg := ElGamal.mk ec (mkCoord 0 1) 5 in
  (pub <- ElGamal.gen eg 2 ;;
   c <- ElGamal.enc2 eg (mkCoord 2 2) pub 3 ;;
   ElGamal.dec eg c 2) = Ok (mkCoord 2 2).
Proof.
  apply (elgamal_round_trip 1 1 7 (EC.mk 1 1 7) (mkCoord 0 1)
           (ElGamal.mk (EC.mk 1 1 7) (mkCoord 0 1) 5) (mkCoord 2 2) 2 3).
  - reflexivity.
  - exact prime_7.
  - unfold nonsingular. cbn. discriminate.
  - split; [unfold reduced; cbn; lia | reflexivity].
  - reflexivity.
  - split; [unfold reduced; cbn; lia | reflexivity].
  - cbn. lia.
  - lia.
Defined.

(** ** The worked example *)

Lemma bind_ok {A B : Type} (v : A) (k : A -> result B) : bind (Ok v) k = k v.
Proof. reflexivity. Qed.

Lemma bind_raise {A B : Type} (e : exn) (k : A -> result B) :
  bind (Raise e) k = Raise e.
Proof. reflexivity. Qed.

Lemma get_eg_g_loop_skip (ec : EC.t) (i : Z) (rest : list Z) (e : exn) :
  EC.at_ ec i = Raise e ->
  get_eg_g_loop ec (i :: rest) = get_eg_g_loop ec rest.
Proof. intros E. cbn [get_eg_g_loop]. now rewrite E. Qed.

Lemma get_eg_g_loop_keep (ec : EC.t) (i : Z) (rest : list Z) (g g' : Coord) (o : Z) :
  EC.at_ ec i = Ok (g, g') -> EC.order ec g = Ok o -> o <= EC.q ec ->
  get_eg_g_loop ec (i :: rest) = Some g.
Proof.
  intros E1 E2 Ho. cbn [get_eg_g_loop]. rewrite E1. cbn [bind]. rewrite E2. cbn [bind].
  destruct (Z.leb_spec o (EC.q ec)); [reflexivity | lia].
Qed.


(** The base point has order [q] itself: the scan of [EC.order] stops at
    its last index. *)
Lemma order_example : EC.order ec_example g_example = Ok 4093.
Proof. vm_compute. reflexivity. Qed.

Lemma at_example_0 : EC.at_ ec_example 0 = Raise (Exception "not found").
Proof. vm_compute. reflexivity. Qed.

Lemma at_example_1 : EC.at_ ec_example (0 + 1) = Ok (g_example, mkCoord 1 3912).
Proof. vm_compute. reflexivity. Qed.

(** [get_eg_g] finds no point at [x = 0] and keeps the first point at
    [x = 1]. *)
Lemma get_eg_g_example : get_eg_g 4093 ec_example = Some g_example.
Proof.
  unfold get_eg_g.
  rewrite (range_cons 0 4093), (range_cons (0 + 1) 4093) by lia.
  rewrite (get_eg_g_loop_skip _ _ _ _ at_example_0).
  apply (get_eg_g_loop_keep _ _ _ _ _ _ at_example_1 order_example).
  cbn. lia.
Qed.

Lemma elgamal_init_ok (ec : EC.t) (g : Coord) (n : Z) :
  EC.is_valid ec g = Ok true -> EC.order ec g = Ok n ->
  ElGamal.init ec g = Ok (ElGamal.mk ec g n).
Proof. intros E1 E2. unfold ElGamal.init. now rewrite E1, E2. Qed.

Lemma build_cipher_ok (a b q : Z) (ec : EC.t) (g : Coord) (eg : ElGamal.t) :
  is_valid_eg a b q = Ok true -> EC.init a b q = Ok ec ->
  get_eg_g q ec = Some g -> ElGamal.init ec g = Ok eg ->
  build_cipher a b q = Ok eg.
Proof.
  intros E1 E2 E3 E4. unfold build_cipher. rewrite E1. cbn [bind negb].
  rewrite E2. cbn [bind]. now rewrite E3.
Qed.

Lemma build_cipher_example : build_cipher 9 7 4093 = Ok eg_example.
Proof.
  apply (build_cipher_ok 9 7 4093 ec_example g_example).
  - vm_compute. reflexivity.
  - vm_compute. reflexivity.
  - exact get_eg_g_example.
  - apply elgamal_init_ok; [vm_compute; reflexivity | exact order_example].
Qed.

Lemma round_trip_with (a b q priv rand : Z) (message : str) (eg : ElGamal.t)
    (pub : Coord) (cs : list (Coord * Coord)) (ps : list Coord) (out : str) :
  build_cipher a b q = Ok eg ->
  ElGamal.gen eg priv = Ok pub ->
  encrypt_points2 (map_to_points_koblitz message (ElGamal.ec eg)) eg pub rand = Ok cs ->
  decrypt_points eg cs priv = Ok ps ->
  map_to_chars (map x ps) = Ok out ->
  (cs <- encrypt_message a b q priv rand message ;; decrypt_message a b q priv cs)
  = Ok out.
Proof.
  intros E1 E2 E3 E4 E5. unfold encrypt_message, decrypt_message.
  rewrite E1. cbn [bind]. rewrite E2. cbn [bind]. rewrite E3. cbn [bind].
  rewrite E4. cbn [bind]. exact E5.
Qed.

(** C9. On the curve (9, 7, 4093), with the base point the scan finds
    first, private key 5 and nonce 15: the message "HI" is Koblitz-encoded,
    every point is encrypted into a pair, every pair is decrypted, and the
    decoded abscissas spell "HI" again. *)
Theorem end_to_end_HI :
  get_eg_g 4093 ec_example = Some g_example
  /\ map_to_points_koblitz (str_of_string "HI") ec_example
     = [Some (mkCoord 1441 795); Some (mkCoord 1461 1681)]
  /\ (cs <- encrypt_message 9 7 4093 5 15 (str_of_string "HI") ;;
      decrypt_message 9 7 4093 5 cs) = Ok (str_of_string "HI").
Proof.
  split; [exact get_eg_g_example|].
  split; [vm_compute; reflexivity|].
  apply (round_trip_with 9 7 4093 5 15 (str_of_string "HI") eg_example
           (mkCoord 2176 3625)
           [(mkCoord 3083 2393, mkCoord 313 2390);
            (mkCoord 3083 2393, mkCoord 3606 3062)]
           [mkCoord 1441 795; mkCoord 1461 1681]).
  - exact build_cipher_example.
  - vm_compute. reflexivity.
  - vm_compute. reflexivity.
  - vm_compute. reflexivity.
  - vm_compute. reflexivity.
Qed.

(** * Further properties of the code *)

(** ** Extended Euclid and modular square roots *)

(** X1. [egcd] never fails and returns Bezout coefficients: [a * s + b * t]
    is the third component, which is [gcd a b] when [b] is positive.  For
    [b <= 0] the loop does not run and [(1, 0, a)] is returned. *)
Theorem egcd_bezout (a b : Z) :
  exists s t g,
    egcd a b = Ok (s, t, g) /\ a * s + b * t = g
    /\ (0 < b -> g = Z.gcd a b /\ (g | a) /\ (g | b))
    /\ (b <= 0 -> s = 1 /\ t = 0 /\ g = a).
Proof.
  destruct (Z_lt_le_dec 0 b) as [Hb|Hb].
  - destruct (egcd_spec a b Hb) as [s [t [E B]]].
    exists s, t, (Z.gcd a b). repeat split; trivial; try lia.
    + apply Z.gcd_divide_l.
    + apply Z.gcd_divide_r.
  - exists 1, 0, a. rewrite egcd_nonpos by assumption.
    repeat split; lia.
Qed.

(** X2. [sqrt n q] fails its assertion when [q <= n].  Otherwise it returns
    [(i, q - i)] for the smallest [i] of [[1, q)] whose square is [n]
    modulo [q], and then both components square to [n]; or it raises
    "not found" when no [i] of [[1, q)] does. *)
Theorem sqrt_roots (n q : Z) :
  (q <= n -> sqrt n q = Raise AssertionError)
  /\ (n < q ->
      (exists i, sqrt n q = Ok (i, q - i)
                 /\ 1 <= i < q /\ (i * i) mod q = n
                 /\ ((q - i) * (q - i)) mod q = n
                 /\ (forall j, 1 <= j < i -> (j * j) mod q <> n))
      \/ (sqrt n q = Raise (Exception "not found")
          /\ forall j, 1 <= j < q -> (j * j) mod q <> n)).
Proof.
  split.
  - intros H. unfold sqrt. destruct (Z.ltb_spec n q); [lia | reflexivity].
  - intros H. destruct (Z.eq_dec q 0) as [E0|N0].
    + right. unfold sqrt. destruct (Z.ltb_spec n q); [|lia].
      cbn [assert bind]. rewrite range_nil by lia. split; [reflexivity | lia].
    + destruct (sqrt_spec n q H N0)
        as [[i [Hi [Hsq [Hmin Es]]]]|[Hnone Es]].
      * left. exists i. repeat split; try lia; trivial.
        replace ((q - i) * (q - i)) with (i * i + (q - 2 * i) * q) by lia.
        now rewrite Z.mod_add by lia.
      * right. split; assumption.
Qed.

(** A prime modulus has no zero divisors below it. *)
Lemma prime_square_nz (q i : Z) :
  Z.prime q -> 1 <= i < q -> (i * i) mod q <> 0.
Proof.
  intros Hp Hi E. apply Z.mod_divide in E; [|lia].
  apply (Z.divide_prime_mul i i q Hp) in E.
  assert (D : (q | i)) by tauto.
  apply Z.divide_pos_le in D; lia.
Qed.

Lemma init_prime (a b q : Z) (ec : EC.t) :
  EC.init a b q = Ok ec -> Z.prime q ->
  ec = EC.mk a b q /\ constructed ec /\ Z.prime (EC.q ec) /\ 2 < EC.q ec.
Proof.
  intros Hec Hp. apply init_constructed in Hec. destruct Hec as [-> Hc].
  split; [reflexivity|]. split; [exact Hc|]. split; [exact Hp|].
  now apply q_gt_2.
Qed.

(** X3. The scan of [sqrt] starts at 1, so the root 0 is never found: over
    a prime field, at an abscissa [x0] where the right-hand side of the
    curve equation vanishes, [(x0, 0)] is a valid point and yet [EC.at]
    raises "not found". *)
Theorem at_misses_ordinate_zero (a b q : Z) (ec : EC.t) (x0 : Z) :
  EC.init a b q = Ok ec -> Z.prime q ->
  x0 < q -> (x0 ^ 3 + a * x0 + b) mod q = 0 ->
  EC.is_valid ec (mkCoord x0 0) = Ok true
  /\ EC.at_ ec x0 = Raise (Exception "not found").
Proof.
  intros Hec Hp Hx H0.
  destruct (init_prime a b q ec Hec Hp) as [-> [Hc [_ Hq]]]. cbn [EC.q] in Hq.
  split.
  - rewrite is_valid_ok by (cbn; lia). f_equal. unfold valid.
    cbn [x y EC.q EC.a EC.b]. rewrite H0. apply orb_true_iff. now right.
  - unfold EC.at_. cbn [EC.q EC.a EC.b].
    destruct (Z.ltb_spec x0 q); [|lia]. cbn [assert bind].
    rewrite pymod_ok by lia. cbn [bind]. rewrite H0.
    destruct (sqrt_spec 0 q ltac:(lia) ltac:(lia))
      as [[i [Hi [Hsq _]]]|[_ Es]].
    + exfalso. now apply (prime_square_nz q i Hp Hi).
    + now rewrite Es.
Qed.

Lemma at_misses_ordinate_zero_witness :
  EC.is_valid (EC.mk 2 4 7) (mkCoord 1 0) = Ok true
  /\ EC.at_ (EC.mk 2 4 7) 1 = Raise (Exception "not found").
Proof.
  apply (at_misses_ordinate_zero 2 4 7 (EC.mk 2 4 7) 1).
  - reflexivity.
  - exact prime_7.
  - lia.
  - reflexivity.
Defined.

(** ** Negation *)

(** X4. [EC.neg] never fails on a constructed curve and keeps validity. *)
Theorem neg_keeps_valid (a b q : Z) (ec : EC.t) (p : Coord) :
  EC.init a b q = Ok ec -> EC.is_valid ec p = Ok true ->
  exists n, EC.neg ec p = Ok n /\ EC.is_valid ec n = Ok true.
Proof.
  intros Hec Hv. apply init_constructed in Hec. destruct Hec as [_ Hc].
  pose proof (q_gt_2 ec Hc) as Hq.
  exists (pneg ec p). rewrite neg_ok by lia. split; [reflexivity|].
  rewrite is_valid_ok in * by lia. f_equal.
  apply pneg_valid; trivial. congruence.
Qed.

Lemma neg_keeps_valid_witness :
  exists n, EC.neg (EC.mk 1 1 7) (mkCoord 2 2) = Ok n
            /\ EC.is_valid (EC.mk 1 1 7) n = Ok true.
Proof.
  apply (neg_keeps_valid 1 1 7 (EC.mk 1 1 7) (mkCoord 2 2)); reflexivity.
Defined.

(** X5. Negating twice reduces the ordinate modulo [q] and changes nothing
    else; a point with its ordinate in [[0, q)] comes back unchanged. *)
Theorem neg_neg (a b q : Z) (ec : EC.t) (p : Coord) :
  EC.init a b q = Ok ec ->
  (n <- EC.neg ec p ;; EC.neg ec n) = Ok (mkCoord (x p) (y p mod q))
  /\ (0 <= y p < q -> (n <- EC.neg ec p ;; EC.neg ec n) = Ok p).
Proof.
  intros Hec. apply init_constructed in Hec. destruct Hec as [-> Hc].
  pose proof (q_gt_2 _ Hc) as Hq. cbn [EC.q] in Hq.
  assert (E : (n <- EC.neg (EC.mk a b q) p ;; EC.neg (EC.mk a b q) n)
              = Ok (mkCoord (x p) (y p mod q))).
  { rewrite neg_ok by (cbn; lia). cbn [bind]. rewrite neg_ok by (cbn; lia).
    unfold pneg. cbn [x y EC.q]. f_equal. f_equal.
    destruct (Z.eq_dec (y p mod q) 0) as [E0|N0].
    - rewrite (Z.mod_opp_l_z (y p) q), E0 by lia. reflexivity.
    - rewrite (Z.mod_opp_l_nz (y p) q) by lia.
      pose proof (Z.mod_pos_bound (y p) q ltac:(lia)) as Hb.
      rewrite (Z.mod_opp_l_nz (q - y p mod q) q).
      + rewrite (Z.mod_small (q - y p mod q) q) by lia. lia.
      + lia.
      + rewrite Z.mod_small by lia. lia. }
  split; [exact E|].
  intros Hy. rewrite E. rewrite Z.mod_small by lia. now destruct p.
Qed.

Lemma neg_neg_witness :
  EC.init 1 1 7 = Ok (EC.mk 1 1 7)
  /\ (n <- EC.neg (EC.mk 1 1 7) (mkCoord 2 9) ;; EC.neg (EC.mk 1 1 7) n)
     = Ok (mkCoord 2 (9 mod 7)).
Proof.
  split; [reflexivity|].
  apply (neg_neg 1 1 7 (EC.mk 1 1 7) (mkCoord 2 9)). reflexivity.
Defined.

(** ** The group laws of [EC.add] *)

(** X6. Closure: the sum of two valid points of the data model is one. *)
Theorem add_closed (a b q : Z) (ec : EC.t) (p1 p2 : Coord) :
  EC.init a b q = Ok ec -> Z.prime q ->
  curve_point ec p1 -> curve_point ec p2 ->
  exists d, EC.add ec p1 p2 = Ok d /\ curve_point ec d.
Proof.
  intros Hec Hp H1 H2.
  destruct (init_prime a b q ec Hec Hp) as [_ [Hc [Hpq Hq]]].
  exists (padd ec p1 p2). rewrite add_ok by lia. split; [reflexivity|].
  apply (curve_point_pt ec Hc). apply (curve_point_pt ec Hc) in H1, H2.
  now apply pt_padd.
Qed.

Lemma add_closed_witness :
  let ec := EC.mk 1 1 7 in
  exists d, EC.add ec (mkCoord 0 1) (mkCoord 2 2) = Ok d /\ curve_point ec d.
Proof.
  apply (add_closed 1 1 7 (EC.mk 1 1 7) (mkCoord 0 1) (mkCoord 2 2)).
  - reflexivity.
  - exact prime_7.
  - split; [unfold reduced; cbn; lia | reflexivity].
  - split; [unfold reduced; cbn; lia | reflexivity].
Defined.

(** X7. Inverse: a valid point plus its negation is the identity. *)
Theorem add_neg_zero (a b q : Z) (ec : EC.t) (p : Coord) :
  EC.init a b q = Ok ec -> Z.prime q -> curve_point ec p ->
  (n <- EC.neg ec p ;; EC.add ec p n) = Ok (EC.zero ec).
Proof.
  intros Hec Hp H1.
  destruct (init_prime a b q ec Hec Hp) as [_ [Hc [Hpq Hq]]].
  apply (curve_point_pt ec Hc) in H1.
  rewrite neg_ok by lia. cbn [bind]. rewrite add_ok by lia. f_equal.
  now apply padd_pneg.
Qed.

Lemma add_neg_zero_witness :
  let ec := EC.mk 1 1 7 in
  (n <- EC.neg ec (mkCoord 2 2) ;; EC.add ec (mkCoord 2 2) n) = Ok (EC.zero ec).
Proof.
  apply (add_neg_zero 1 1 7 (EC.mk 1 1 7) (mkCoord 2 2)).
  - reflexivity.
  - exact prime_7.
  - split; [unfold reduced; cbn; lia | reflexivity].
Defined.

(** X8. Associativity, on a curve with a non-zero discriminant. *)
Theorem add_associative (a b q : Z) (ec : EC.t) (p1 p2 p3 : Coord) :
  EC.init a b q = Ok ec -> Z.prime q -> nonsingular ec ->
  curve_point ec p1 -> curve_point ec p2 -> curve_point ec p3 ->
  exists r,
    (s <- EC.add ec p1 p2 ;; EC.add ec s p3) = Ok r
    /\ (t <- EC.add ec p2 p3 ;; EC.add ec p1 t) = Ok r.
Proof.
  intros Hec Hp Hns H1 H2 H3.
  destruct (init_prime a b q ec Hec Hp) as [_ [Hc [Hpq Hq]]].
  apply (curve_point_pt ec Hc) in H1, H2, H3.
  exists (padd ec (padd ec p1 p2) p3).
  rewrite !add_ok by lia. cbn [bind]. rewrite !add_ok by lia.
  split; [reflexivity|]. f_equal. symmetry.
  apply padd_assoc; trivial; now apply nonsingular_regular_point.
Qed.

Lemma add_associative_witness :
  let ec := EC.mk 1 1 7 in
  exists r,
    (s <- EC.add ec (mkCoord 0 1) (mkCoord 2 2) ;; EC.add ec s (mkCoord 2 5)) = Ok r
    /\ (t <- EC.add ec (mkCoord 2 2) (mkCoord 2 5) ;; EC.add ec (mkCoord 0 1) t) = Ok r.
Proof.
  apply (add_associative 1 1 7 (EC.mk 1 1 7) (mkCoord 0 1) (mkCoord 2 2) (mkCoord 2 5)).
  - reflexivity.
  - exact prime_7.
  - unfold nonsingular. cbn. discriminate.
  - split; [unfold reduced; cbn; lia | reflexivity].
  - split; [unfold reduced; cbn; lia | reflexivity].
  - split; [unfold reduced; cbn; lia | reflexivity].
Defined.

(** X9. Cancellation: adding [p2] and then its negation gives [p1] back. *)
Theorem add_cancel (a b q : Z) (ec : EC.t) (p1 p2 : Coord) :
  EC.init a b q = Ok ec -> Z.prime q -> nonsingular ec ->
  curve_point ec p1 -> curve_point ec p2 ->
  (d <- EC.add ec p1 p2 ;; n <- EC.neg ec p2 ;; EC.add ec d n) = Ok p1.
Proof.
  intros Hec Hp Hns H1 H2.
  destruct (init_prime a b q ec Hec Hp) as [_ [Hc [Hpq Hq]]].
  apply (curve_point_pt ec Hc) in H1, H2.
  rewrite add_ok by lia. cbn [bind]. rewrite neg_ok by lia. cbn [bind].
  rewrite add_ok by lia. f_equal. now apply mask_unmask.
Qed.

Lemma add_cancel_witness :
  let ec := EC.mk 1 1 7 in
  (d <- EC.add ec (mkCoord 0 1) (mkCoord 2 2) ;;
   n <- EC.neg ec (mkCoord 2 2) ;;
   EC.add ec d n) = Ok (mkCoord 0 1).
Proof.
  apply (add_cancel 1 1 7 (EC.mk 1 1 7) (mkCoord 0 1) (mkCoord 2 2)).
  - reflexivity.
  - exact prime_7.
  - unfold nonsingular. cbn. discriminate.
  - split; [unfold reduced; cbn; lia | reflexivity].
  - split; [unfold reduced; cbn; lia | reflexivity].
Defined.

(** ** Scalar multiples as a group action *)

Section Multiples.
Variable ec : EC.t.
Hypothesis Hc : constructed ec.
Hypothesis Hp : Z.prime (EC.q ec).

(** Every valid point lies in a set of valid points that holds the
    identity, is closed under [padd] and on which [padd] is
    associative: the regular points, or the identity and the singular
    point. *)
Lemma span_exists (p : Coord) :
  pt ec p ->
  exists G : Coord -> Prop,
    G (EC.zero ec)
    /\ (forall p1 p2, G p1 -> G p2 -> G (padd ec p1 p2))
    /\ (forall p1 p2 p3, G p1 -> G p2 -> G p3 ->
          padd ec (padd ec p1 p2) p3 = padd ec p1 (padd ec p2 p3))
    /\ G p.
Proof.
  intros Hpt. destruct (regular_at_dec ec p) as [Hr|Hs].
  - exists (regular_point ec). split; [now apply regular_point_zero|].
    split; [now apply regular_point_padd|].
    split; [now apply padd_assoc | now split].
  - destruct (singular_double ec Hc p Hs) as [Hnz Hdbl].
    exists (fun r => r = EC.zero ec \/ r = p). split; [now left|]. split.
    + intros p1 p2 [-> | ->] [-> | ->];
        rewrite ?padd_zero_l, ?padd_zero_r, ?Hdbl; auto.
    + split; [|now right].
      intros p1 p2 p3 [-> | ->] [-> | ->] [-> | ->];
        rewrite ?padd_zero_l, ?padd_zero_r, ?Hdbl, ?padd_zero_l, ?padd_zero_r;
        reflexivity.
Qed.

Lemma nsmul_add_pt (p : Coord) (m n : nat) :
  pt ec p -> nsmul ec p (m + n) = padd ec (nsmul ec p m) (nsmul ec p n).
Proof.
  intros Hpt. destruct (span_exists p Hpt) as [G [G0 [G1 [G2 Gp]]]].
  now apply (nsmul_add ec G).
Qed.

Lemma nsmul_mul_pt (p : Coord) (m n : nat) :
  pt ec p -> nsmul ec (nsmul ec p m) n = nsmul ec p (m * n).
Proof.
  intros Hpt. destruct (span_exists p Hpt) as [G [G0 [G1 [G2 Gp]]]].
  now apply (nsmul_mul ec G).
Qed.

Lemma nsmul_zero (k : nat) : nsmul ec (EC.zero ec) k = EC.zero ec.
Proof. induction k as [|k IH]; cbn [nsmul]; [reflexivity | now rewrite IH]. Qed.

Lemma pt_nsmul_any (p : Coord) (k : nat) : pt ec p -> pt ec (nsmul ec p k).
Proof.
  intros Hpt. induction k as [|k IH]; cbn [nsmul].
  - now apply pt_zero.
  - now apply pt_padd.
Qed.

(** [EC.mul] on a valid point, for any scalar. *)
Lemma mul_value (p : Coord) (k : Z) :
  pt ec p -> EC.mul ec p k = Ok (nsmul ec p (Z.to_nat k)).
Proof.
  intros Hpt. destruct (Z_le_gt_dec 0 k) as [Hk|Hk].
  - now apply mul_correct.
  - replace (Z.to_nat k) with O by lia. unfold EC.mul. cbn [EC.mul_loop].
    destruct (Z.ltb_spec 0 k); [lia | reflexivity].
Qed.

(** What a successful [EC.order] tells. *)
Lemma order_inv (g : Coord) (n : Z) :
  EC.order ec g = Ok n ->
  EC.is_valid ec g = Ok true /\ g <> EC.zero ec
  /\ 1 <= n <= EC.q ec
  /\ EC.mul ec g n = Ok (EC.zero ec)
  /\ (forall j, 1 <= j < n -> EC.mul ec g j <> Ok (EC.zero ec)).
Proof.
  pose proof (q_gt_2 ec Hc) as Hq. unfold EC.order.
  rewrite is_valid_ok by lia. cbn [bind].
  destruct (valid ec g); [|discriminate]. cbn [andb].
  destruct (Coord_eqb_spec g (EC.zero ec)) as [|Hg]; [discriminate|].
  cbn [negb assert bind]. intros Hord.
  set (P := fun i => match EC.mul ec g i with
                     | Ok m => Coord_eqb m (EC.zero ec)
                     | Raise _ => false
                     end).
  assert (HP : forall j, P j = false ->
             (exists m, EC.mul ec g j = Ok m /\ m <> EC.zero ec)
             /\ EC.mul ec g j <> Ok (EC.zero ec)).
  { unfold P. intros j. destruct (mul_total ec g j ltac:(lia)) as [m ->].
    destruct (Coord_eqb_spec m (EC.zero ec)); [discriminate|].
    intros _. split; [eauto | congruence]. }
  destruct (first_in_range P 1 (EC.q ec + 1)) as [[k [Hk [Pk Hmin]]]|Hnone].
  - unfold P in Pk.
    destruct (EC.mul ec g k) as [m|] eqn:Em; [|discriminate].
    destruct (Coord_eqb_spec m (EC.zero ec)) as [->|]; [|discriminate].
    rewrite (range_app 1 k (EC.q ec + 1)), (range_cons k (EC.q ec + 1)) in Hord by lia.
    rewrite (order_loop_hit ec g _ _ k) in Hord; trivial.
    + inversion Hord. subst n. repeat split; trivial; try lia.
      intros j Hj. apply HP, Hmin. lia.
    + intros j Hj. apply in_range in Hj. now apply HP, Hmin.
  - rewrite order_loop_miss in Hord; [discriminate|].
    intros j Hj. apply in_range in Hj. apply HP, Hnone. lia.
Qed.

(** A scalar can be reduced modulo the order of the point. *)
Lemma nsmul_mod_order (g : Coord) (n k : Z) :
  pt ec g -> EC.order ec g = Ok n -> 0 <= k ->
  nsmul ec g (Z.to_nat k) = nsmul ec g (Z.to_nat (k mod n)).
Proof.
  intros Hpt Hord Hk.
  destruct (order_inv g n Hord) as [_ [_ [Hn [Hz _]]]].
  pose proof (Z.mod_pos_bound k n ltac:(lia)) as Hr.
  rewrite mul_value in Hz by assumption. injection Hz as Hzn.
  rewrite (Z.div_mod k n) at 1 by lia.
  pose proof (Z.div_pos k n Hk ltac:(lia)) as Hd.
  rewrite Z2Nat.inj_add, Z2Nat.inj_mul by nia.
  rewrite nsmul_add_pt by assumption.
  rewrite <- nsmul_mul_pt by assumption.
  now rewrite Hzn, nsmul_zero, padd_zero_l.
Qed.

End Multiples.

(** X10. [EC.mul] never fails on a valid point and returns a valid point,
    whatever the scalar. *)
Theorem mul_closed (a b q : Z) (ec : EC.t) (p : Coord) (k : Z) :
  EC.init a b q = Ok ec -> Z.prime q -> curve_point ec p ->
  exists m, EC.mul ec p k = Ok m /\ curve_point ec m.
Proof.
  intros Hec Hp Hpt.
  destruct (init_prime a b q ec Hec Hp) as [_ [Hc [Hpq Hq]]].
  apply (curve_point_pt ec Hc) in Hpt.
  exists (nsmul ec p (Z.to_nat k)). split; [now apply mul_value|].
  apply (curve_point_pt ec Hc). now apply pt_nsmul_any.
Qed.

Lemma mul_closed_witness :
  let ec := EC.mk 1 1 7 in
  exists m, EC.mul ec (mkCoord 0 1) 3 = Ok m /\ curve_point ec m.
Proof.
  apply (mul_closed 1 1 7 (EC.mk 1 1 7) (mkCoord 0 1) 3).
  - reflexivity.
  - exact prime_7.
  - split; [unfold reduced; cbn; lia | reflexivity].
Defined.

(** X11. The multiple by a sum is the sum of the multiples. *)
Theorem mul_plus (a b q : Z) (ec : EC.t) (p : Coord) (j k : Z) :
  EC.init a b q = Ok ec -> Z.prime q -> curve_point ec p ->
  0 <= j -> 0 <= k ->
  exists s,
    EC.mul ec p (j + k) = Ok s
    /\ (m1 <- EC.mul ec p j ;; m2 <- EC.mul ec p k ;; EC.add ec m1 m2) = Ok s.
Proof.
  intros Hec Hp Hpt Hj Hk.
  destruct (init_prime a b q ec Hec Hp) as [_ [Hc [Hpq Hq]]].
  apply (curve_point_pt ec Hc) in Hpt.
  exists (nsmul ec p (Z.to_nat (j + k))).
  rewrite !(mul_value ec Hc Hpq) by assumption. cbn [bind].
  split; [reflexivity|]. rewrite add_ok by lia. f_equal.
  rewrite Z2Nat.inj_add by assumption. symmetry. now apply nsmul_add_pt.
Qed.

Lemma mul_plus_witness :
  let ec := EC.mk 1 1 7 in
  let p := mkCoord 0 1 in
  exists s,
    EC.mul ec p (2 + 4) = Ok s
    /\ (m1 <- EC.mul ec p 2 ;; m2 <- EC.mul ec p 4 ;; EC.add ec m1 m2) = Ok s.
Proof.
  apply (mul_plus 1 1 7 (EC.mk 1 1 7) (mkCoord 0 1) 2 4).
  - reflexivity.
  - exact prime_7.
  - split; [unfold reduced; cbn; lia | reflexivity].
  - lia.
  - lia.
Defined.

(** X12. A multiple of a multiple is the multiple by the product; so the two
    orders of multiplying by [j] and by [k] agree. *)
Theorem mul_times (a b q : Z) (ec : EC.t) (p : Coord) (j k : Z) :
  EC.init a b q = Ok ec -> Z.prime q -> curve_point ec p ->
  0 <= j -> 0 <= k ->
  exists s,
    EC.mul ec p (j * k) = Ok s
    /\ (m <- EC.mul ec p j ;; EC.mul ec m k) = Ok s
    /\ (m <- EC.mul ec p k ;; EC.mul ec m j) = Ok s.
Proof.
  intros Hec Hp Hpt Hj Hk.
  destruct (init_prime a b q ec Hec Hp) as [_ [Hc [Hpq Hq]]].
  apply (curve_point_pt ec Hc) in Hpt.
  exists (nsmul ec p (Z.to_nat (j * k))).
  rewrite !(mul_value ec Hc Hpq p) by assumption. cbn [bind].
  rewrite !(mul_value ec Hc Hpq) by (now apply pt_nsmul_any).
  rewrite !nsmul_mul_pt by assumption.
  rewrite Z2Nat.inj_mul by assumption.
  repeat split. now rewrite Nat.mul_comm.
Qed.

Lemma mul_times_witness :
  let ec := EC.mk 1 1 7 in
  let p := mkCoord 0 1 in
  exists s,
    EC.mul ec p (2 * 3) = Ok s
    /\ (m <- EC.mul ec p 2 ;; EC.mul ec m 3) = Ok s
    /\ (m <- EC.mul ec p 3 ;; EC.mul ec m 2) = Ok s.
Proof.
  apply (mul_times 1 1 7 (EC.mk 1 1 7) (mkCoord 0 1) 2 3).
  - reflexivity.
  - exact prime_7.
  - split; [unfold reduced; cbn; lia | reflexivity].
  - lia.
  - lia.
Defined.

(** X13. The multiples of [g] repeat with period [order g]: a scalar can be
    reduced modulo the order, and [mul g k] is the identity exactly for
    the multiples [k] of the order. *)
Theorem mul_mod_order (a b q : Z) (ec : EC.t) (g : Coord) (n k : Z) :
  EC.init a b q = Ok ec -> Z.prime q -> curve_point ec g ->
  EC.order ec g = Ok n -> 0 <= k ->
  EC.mul ec g k = EC.mul ec g (k mod n)
  /\ (EC.mul ec g k = Ok (EC.zero ec) <-> k mod n = 0).
Proof.
  intros Hec Hp Hpt Hord Hk.
  destruct (init_prime a b q ec Hec Hp) as [_ [Hc [Hpq Hq]]].
  apply (curve_point_pt ec Hc) in Hpt.
  destruct (order_inv ec Hc g n Hord) as [_ [_ [Hn [Hz Hmin]]]].
  pose proof (Z.mod_pos_bound k n ltac:(lia)) as Hr.
  assert (Hper : EC.mul ec g k = EC.mul ec g (k mod n)).
  { rewrite !(mul_value ec Hc Hpq) by assumption. f_equal.
    now apply nsmul_mod_order. }
  split; [exact Hper|]. rewrite Hper. split.
  - intros E. destruct (Z.eq_dec (k mod n) 0) as [|N]; trivial.
    exfalso. apply (Hmin (k mod n)); [lia | exact E].
  - intros ->. reflexivity.
Qed.

Lemma mul_mod_order_witness :
  let ec := EC.mk 1 1 7 in
  let g := mkCoord 0 1 in
  EC.mul ec g 13 = EC.mul ec g (13 mod 5)
  /\ (EC.mul ec g 13 = Ok (EC.zero ec) <-> 13 mod 5 = 0).
Proof.
  apply (mul_mod_order 1 1 7 (EC.mk 1 1 7) (mkCoord 0 1) 5 13).
  - reflexivity.
  - exact prime_7.
  - split; [unfold reduced; cbn; lia | reflexivity].
  - reflexivity.
  - lia.
Defined.

(** ** The cipher: construction, assertions and edge scalars *)

Lemma order_loop_cases (ec : EC.t) (g : Coord) (l : list Z) :
  0 < EC.q ec ->
  (exists n, EC.order_loop ec g l = Ok n)
  \/ EC.order_loop ec g l = Raise (Exception "Invalid order").
Proof.
  intros Hq. induction l as [|i l IH]; cbn [EC.order_loop]; [now right|].
  destruct (mul_total ec g i Hq) as [m ->]. cbn [bind].
  destruct (Coord_eqb m (EC.zero ec)); [left; eauto | exact IH].
Qed.

(** X14. [ElGamal.__init__] fails its assertions exactly when the base point
    is invalid or is the identity (which [is_valid] accepts but [order]
    refuses).  A constructed cipher keeps the curve and the base point,
    and its [n] lies in [[1, q]] with [mul g n] the identity. *)
Theorem elgamal_init_spec (a b q : Z) (ec : EC.t) (g : Coord) :
  EC.init a b q = Ok ec ->
  (ElGamal.init ec g = Raise AssertionError
   <-> EC.is_valid ec g = Ok false \/ g = EC.zero ec)
  /\ (forall eg, ElGamal.init ec g = Ok eg ->
        ElGamal.ec eg = ec /\ ElGamal.g eg = g
        /\ EC.is_valid ec g = Ok true /\ g <> EC.zero ec
        /\ 1 <= ElGamal.n eg <= q
        /\ EC.mul ec g (ElGamal.n eg) = Ok (EC.zero ec)).
Proof.
  intros Hec. apply init_constructed in Hec. destruct Hec as [Eec Hc].
  assert (Eq : EC.q ec = q) by (now rewrite Eec).
  pose proof (q_gt_2 ec Hc) as Hq.
  split.
  - unfold ElGamal.init, EC.order. rewrite is_valid_ok by lia. cbn [bind].
    destruct (valid ec g) eqn:V; cbn [assert bind andb].
    + destruct (Coord_eqb_spec g (EC.zero ec)) as [Eg|Ng]; cbn [negb assert bind].
      * split; [now right | reflexivity].
      * destruct (order_loop_cases ec g (range 1 (EC.q ec + 1)) ltac:(lia))
          as [[n ->]| ->]; cbn [bind];
          (split; [discriminate | intros [H|H]; [discriminate | contradiction]]).
    + split; [now left | reflexivity].
  - intros eg Heg. apply elgamal_init_inv in Heg.
    destruct Heg as [E1 [E2 [E3 E4]]].
    destruct (order_inv ec Hc g _ E4) as [_ [Hg [Hn [Hz _]]]].
    repeat split; trivial; lia.
Qed.

Lemma elgamal_init_spec_witness :
  let ec := EC.mk 1 1 7 in
  ElGamal.init ec (EC.zero ec) = Raise AssertionError
  <-> EC.is_valid ec (EC.zero ec) = Ok false \/ EC.zero ec = EC.zero ec.
Proof.
  apply (elgamal_init_spec 1 1 7 (EC.mk 1 1 7) (EC.zero (EC.mk 1 1 7))).
  reflexivity.
Defined.

(** X15. A non-positive nonce switches the masking off: the nonce point is
    the identity and the plaintext point is sent as it is. *)
Theorem enc_nonpositive_nonce (a b q : Z) (ec : EC.t) (g : Coord)
    (eg : ElGamal.t) (plain pub : Coord) (r : Z) :
  EC.init a b q = Ok ec -> ElGamal.init ec g = Ok eg ->
  EC.is_valid ec plain = Ok true -> EC.is_valid ec pub = Ok true -> r <= 0 ->
  ElGamal.enc2 eg plain pub r = Ok (EC.zero ec, plain)
  /\ ElGamal.enc eg plain pub r = Ok plain.
Proof.
  intros Hec Heg Hplain Hpub Hr.
  apply init_constructed in Hec. destruct Hec as [_ Hc].
  pose proof (q_gt_2 ec Hc) as Hq.
  apply elgamal_init_inv in Heg. destruct Heg as [Eec [Eg _]].
  assert (Hmul : forall p, EC.mul ec p r = Ok (EC.zero ec)).
  { intros p. unfold EC.mul. cbn [EC.mul_loop].
    destruct (Z.ltb_spec 0 r); [lia | reflexivity]. }
  unfold ElGamal.enc2, ElGamal.enc. rewrite Eec, Hplain, Hpub. cbn [bind assert].
  rewrite !Hmul. cbn [bind]. rewrite add_ok by lia. cbn [bind].
  now rewrite padd_zero_r.
Qed.

Lemma enc_nonpositive_nonce_witness :
  let ec := EC.mk 1 1 7 in
  let eg := ElGamal.mk ec (mkCoord 0 1) 5 in
  ElGamal.enc2 eg (mkCoord 2 2) (mkCoord 0 6) (-4) = Ok (EC.zero ec, mkCoord 2 2)
  /\ ElGamal.enc eg (mkCoord 2 2) (mkCoord 0 6) (-4) = Ok (mkCoord 2 2).
Proof.
  apply (enc_nonpositive_nonce 1 1 7 (EC.mk 1 1 7) (mkCoord 0 1)
           (ElGamal.mk (EC.mk 1 1 7) (mkCoord 0 1) 5) (mkCoord 2 2) (mkCoord 0 6) (-4)).
  - reflexivity.
  - reflexivity.
  - reflexivity.
  - reflexivity.
  - lia.
Defined.

(** X16. [ElGamal.dec] returns a point when both components of the pair are
    valid, and fails its assertion otherwise; with a non-positive
    private key it returns the second component unchanged. *)
Theorem dec_checks (a b q : Z) (ec : EC.t) (g : Coord) (eg : ElGamal.t)
    (c1 c2 : Coord) (priv : Z) :
  EC.init a b q = Ok ec -> ElGamal.init ec g = Ok eg ->
  (EC.is_valid ec c1 = Ok true /\ EC.is_valid ec c2 = Ok true ->
   exists p, ElGamal.dec eg (c1, c2) priv = Ok p /\ (priv <= 0 -> p = c2))
  /\ (EC.is_valid ec c1 = Ok false \/ EC.is_valid ec c2 = Ok false ->
      ElGamal.dec eg (c1, c2) priv = Raise AssertionError).
Proof.
  intros Hec Heg.
  apply init_constructed in Hec. destruct Hec as [_ Hc].
  pose proof (q_gt_2 ec Hc) as Hq.
  apply elgamal_init_inv in Heg. destruct Heg as [Eec _].
  unfold ElGamal.dec. rewrite Eec. rewrite !is_valid_ok by lia. cbn [bind].
  split.
  - intros [V1 V2]. injection V1 as V1'. injection V2 as V2'.
    rewrite V1'. cbn [bind]. rewrite V2'. cbn [bind assert].
    destruct (mul_total ec c1 priv ltac:(lia)) as [m Em]. rewrite Em. cbn [bind].
    rewrite neg_ok by lia. cbn [bind]. rewrite add_ok by lia.
    exists (padd ec c2 (pneg ec m)). split; [reflexivity|].
    intros Hpriv. unfold EC.mul in Em. cbn [EC.mul_loop] in Em.
    destruct (Z.ltb_spec 0 priv); [lia|]. inversion Em.
    assert (E0 : pneg ec (EC.zero ec) = EC.zero ec).
    { unfold pneg, EC.zero. cbn [x y]. now rewrite Z.mod_0_l by lia. }
    now rewrite E0, padd_zero_r.
  - intros [V|V]; injection V as V'; rewrite V'.
    + reflexivity.
    + destruct (valid ec c1); reflexivity.
Qed.

Lemma dec_checks_witness :
  let ec := EC.mk 1 1 7 in
  let eg := ElGamal.mk ec (mkCoord 0 1) 5 in
  EC.is_valid ec (mkCoord 0 1) = Ok true /\ EC.is_valid ec (mkCoord 3 3) = Ok false
  /\ ElGamal.dec eg (mkCoord 0 1, mkCoord 3 3) 2 = Raise AssertionError.
Proof.
  split; [reflexivity|]. split; [reflexivity|].
  apply (dec_checks 1 1 7 (EC.mk 1 1 7) (mkCoord 0 1)
           (ElGamal.mk (EC.mk 1 1 7) (mkCoord 0 1) 5) (mkCoord 0 1) (mkCoord 3 3) 2).
  - reflexivity.
  - reflexivity.
  - right. reflexivity.
Defined.

(** X17. Both components of a ciphertext pair are valid points of the data
    model, so that decrypting it never fails, under any private key, and
    returns a valid point. *)
Theorem enc2_well_formed (a b q : Z) (ec : EC.t) (g : Coord) (eg : ElGamal.t)
    (plain pub : Coord) (r : Z) :
  EC.init a b q = Ok ec -> Z.prime q ->
  curve_point ec g -> ElGamal.init ec g = Ok eg ->
  curve_point ec plain -> curve_point ec pub ->
  exists c1 c2,
    ElGamal.enc2 eg plain pub r = Ok (c1, c2)
    /\ curve_point ec c1 /\ curve_point ec c2
    /\ forall priv, exists p,
         ElGamal.dec eg (c1, c2) priv = Ok p /\ curve_point ec p.
Proof.
  intros Hec Hp Hg Heg Hplain Hpub.
  destruct (init_prime a b q ec Hec Hp) as [_ [Hc [Hpq Hq]]].
  apply elgamal_init_inv in Heg. destruct Heg as [Eec [Eg _]].
  apply (curve_point_pt ec Hc) in Hg, Hplain, Hpub.
  set (c1 := nsmul ec g (Z.to_nat r)).
  set (c2 := padd ec plain (nsmul ec pub (Z.to_nat r))).
  assert (H1 : pt ec c1) by (now apply pt_nsmul_any).
  assert (H2 : pt ec c2) by (apply pt_padd; trivial; now apply pt_nsmul_any).
  exists c1, c2. split.
  - unfold ElGamal.enc2. rewrite Eec, Eg. rewrite !is_valid_ok by lia.
    rewrite (proj2 Hplain), (proj2 Hpub). cbn [bind assert].
    rewrite !(mul_value ec Hc Hpq) by assumption. cbn [bind].
    now rewrite add_ok by lia.
  - split; [now apply (curve_point_pt ec Hc)|].
    split; [now apply (curve_point_pt ec Hc)|].
    intros priv. exists (padd ec c2 (pneg ec (nsmul ec c1 (Z.to_nat priv)))).
    split.
    + unfold ElGamal.dec. rewrite Eec. rewrite !is_valid_ok by lia.
      rewrite (proj2 H1). cbn [bind]. rewrite (proj2 H2). cbn [bind assert].
      rewrite (mul_value ec Hc Hpq) by assumption. cbn [bind].
      rewrite neg_ok by lia. cbn [bind]. now rewrite add_ok by lia.
    + apply (curve_point_pt ec Hc). apply pt_padd; trivial.
      apply pt_pneg; trivial. now apply pt_nsmul_any.
Qed.

Lemma enc2_well_formed_witness :
  let ec := EC.mk 1 1 7 in
  let eg := ElGamal.mk ec (mkCoord 0 1) 5 in
  exists c1 c2,
    ElGamal.enc2 eg (mkCoord 2 2) (mkCoord 0 6) 3 = Ok (c1, c2)
    /\ curve_point ec c1 /\ curve_point ec c2
    /\ forall priv, exists p,
         ElGamal.dec eg (c1, c2) priv = Ok p /\ curve_point ec p.
Proof.
  apply (enc2_well_formed 1 1 7 (EC.mk 1 1 7) (mkCoord 0 1)
           (ElGamal.mk (EC.mk 1 1 7) (mkCoord 0 1) 5) (mkCoord 2 2) (mkCoord 0 6) 3).
  - reflexivity.
  - exact prime_7.
  - split; [unfold reduced; cbn; lia | reflexivity].
  - reflexivity.
  - split; [unfold reduced; cbn; lia | reflexivity].
  - split; [unfold reduced; cbn; lia | reflexivity].
Defined.

(** ** Text codecs *)

(** What a successful [EC.at] returns. *)
Lemma at_inv (ec : EC.t) (x0 : Z) (p p' : Coord) :
  constructed ec -> EC.at_ ec x0 = Ok (p, p') ->
  x0 < EC.q ec
  /\ exists i, 1 <= i < EC.q ec
       /\ p = mkCoord x0 i /\ p' = mkCoord x0 (EC.q ec - i)
       /\ valid ec p = true /\ valid ec p' = true.
Proof.
  intros Hc. pose proof (q_gt_2 ec Hc) as Hq. unfold EC.at_.
  destruct (Z.ltb_spec x0 (EC.q ec)) as [Hx|]; [|discriminate].
  cbn [assert bind]. rewrite pymod_ok by lia. cbn [bind].
  set (ysq := (x0 ^ 3 + EC.a ec * x0 + EC.b ec) mod EC.q ec).
  assert (Hysq : 0 <= ysq < EC.q ec) by (apply Z.mod_pos_bound; lia).
  destruct (sqrt_spec ysq (EC.q ec) ltac:(lia) ltac:(lia))
    as [[i [Hi [Hsq [_ Es]]]]|[_ Es]]; rewrite Es; cbn [bind]; [|discriminate].
  intros E. inversion E. subst p p'. split; [exact Hx|].
  exists i. repeat split; try lia; unfold valid; cbn [x y];
    apply orb_true_iff; right; apply Z.eqb_eq; fold ysq; rewrite <- Hsq.
  - f_equal. lia.
  - replace ((EC.q ec - i) ^ 2) with (i * i + (EC.q ec - 2 * i) * EC.q ec) by lia.
    now rewrite Z.mod_add by lia.
Qed.

Lemma at_pt (ec : EC.t) (x0 : Z) (p p' : Coord) :
  constructed ec -> 0 <= x0 -> EC.at_ ec x0 = Ok (p, p') ->
  pt ec p /\ x p = x0 /\ p <> EC.zero ec.
Proof.
  intros Hc Hx0 E. destruct (at_inv ec x0 p p' Hc E) as [Hx [i [Hi [-> [_ [V _]]]]]].
  repeat split; cbn [x y]; trivial; try lia.
  intros E0. inversion E0. lia.
Qed.

(** X18. [map_to_points_ascii] maps each character to the first point of
    [EC.at] at its code point: the abscissas of the result spell the
    message, and every point is valid with a non-zero ordinate.  It
    fails, with the exception of [EC.at], at the first character that has
    no point. *)
Theorem map_to_points_ascii_spec (a b q : Z) (ec : EC.t) (message : str) :
  EC.init a b q = Ok ec ->
  (forall pts, map_to_points_ascii message ec = Ok pts ->
     map x pts = message
     /\ Forall (fun p => EC.is_valid ec p = Ok true /\ 1 <= y p < q) pts)
  /\ (forall pre c post e,
        message = pre ++ c :: post ->
        (forall c', In c' pre -> exists p p', EC.at_ ec c' = Ok (p, p')) ->
        EC.at_ ec c = Raise e ->
        map_to_points_ascii message ec = Raise e).
Proof.
  intros Hec. apply init_constructed in Hec. destruct Hec as [Eec Hc].
  assert (Eq : EC.q ec = q) by (now rewrite Eec).
  pose proof (q_gt_2 ec Hc) as Hq.
  split.
  - induction message as [|c rest IH]; intros pts; cbn [map_to_points_ascii].
    + intros E. inversion E. split; [reflexivity | constructor].
    + destruct (EC.at_ ec c) as [[p p']|] eqn:Eat; cbn [bind]; [|discriminate].
      destruct (map_to_points_ascii rest ec) as [ps|]; cbn [bind]; [|discriminate].
      intros E. inversion E. subst pts.
      destruct (IH ps eq_refl) as [Hx Hall].
      destruct (at_inv ec c p p' Hc Eat) as [_ [i [Hi [-> [_ [V _]]]]]].
      split; [cbn [map x]; now rewrite Hx|].
      constructor; [|exact Hall].
      rewrite is_valid_ok by lia. cbn [y]. split; [now f_equal | lia].
  - intros pre c post e -> . induction pre as [|c' pre IH]; intros Hpre Hc0;
      cbn [app map_to_points_ascii].
    + now rewrite Hc0.
    + destruct (Hpre c') as [p [p' Ep]]; [now left|]. rewrite Ep. cbn [bind].
      rewrite IH; trivial. intros c'' Hin. apply Hpre. now right.
Qed.

Lemma map_to_points_ascii_spec_witness :
  let ec := EC.mk 1 1 7 in
  let pts := [mkCoord 2 2; mkCoord 0 1] in
  map_to_points_ascii [2; 0] ec = Ok pts
  /\ map x pts = [2; 0]
  /\ Forall (fun p => EC.is_valid ec p = Ok true /\ 1 <= y p < 7) pts.
Proof.
  split; [reflexivity|].
  apply (proj1 (map_to_points_ascii_spec 1 1 7 (EC.mk 1 1 7) [2; 0] eq_refl)).
  reflexivity.
Defined.

Lemma py_round_div_offset (m j : Z) :
  0 <= j < 20 ->
  py_round_div (m * 20 + j) 20
  = if j <? 10 then m else if 10 <? j then m + 1
    else if Z.even m then m else m + 1.
Proof.
  intros Hj. unfold py_round_div.
  assert (Ed : (m * 20 + j) / 20 = m).
  { rewrite Z.add_comm, Z.div_add by lia. rewrite Z.div_small by lia. lia. }
  assert (Em : (m * 20 + j) mod 20 = j).
  { rewrite Z.add_comm, Z.mod_add by lia. now apply Z.mod_small. }
  cbv zeta. rewrite Ed, Em.
  destruct (Z.ltb_spec j 10), (Z.ltb_spec (2 * j) 20); try lia; trivial.
  destruct (Z.ltb_spec 10 j), (Z.ltb_spec 20 (2 * j)); try lia; trivial.
Qed.

Lemma map_to_chars_values (l : list (Z * Z)) :
  Forall (fun mj => 0 <= fst mj
                    /\ fst mj + (if snd mj <? 10 then 0 else 1) < 1114112
                    /\ 0 <= snd mj < 20) l ->
  map_to_chars (map (fun mj => fst mj * 20 + snd mj) l)
  = Ok (map (fun mj => if snd mj <? 10 then fst mj
                       else if 10 <? snd mj then fst mj + 1
                       else if Z.even (fst mj) then fst mj else fst mj + 1) l).
Proof.
  induction 1 as [|[m j] l [Hm [Hm' Hj]] _ IH]; cbn [map map_to_chars fst snd];
    [reflexivity|].
  cbn [fst snd] in *. change max_bits with 20.
  rewrite py_round_div_offset by assumption. rewrite IH.
  assert (Hchr : forall c, 0 <= c < 1114112 -> chr c = Ok c).
  { intros c Hc. unfold chr.
    destruct (Z.leb_spec 0 c), (Z.ltb_spec c 1114112); try lia. reflexivity. }
  destruct (j <? 10); [|destruct (10 <? j); [|destruct (Z.even m)]];
    rewrite Hchr by lia; reflexivity.
Qed.

(** X19. [map_to_chars] on the abscissas [20 * m + j] that the Koblitz
    encoding produces: an offset [j] below 10 decodes to [m], an offset
    above 10 to [m + 1], and the offset 10 is a tie that goes to the even
    one of the two. *)
Theorem map_to_chars_offsets (l : list (Z * Z)) :
  Forall (fun mj => 0 <= fst mj /\ fst mj + 1 < 1114112 /\ 0 <= snd mj < 20) l ->
  map_to_chars (map (fun mj => fst mj * 20 + snd mj) l)
  = Ok (map (fun mj => if snd mj <? 10 then fst mj
                       else if 10 <? snd mj then fst mj + 1
                       else if Z.even (fst mj) then fst mj else fst mj + 1) l).
Proof.
  intros H. apply map_to_chars_values.
  eapply Forall_impl; [|exact H]. cbn beta. intros mj [H1 [H2 H3]].
  repeat split; try lia. destruct (snd mj <? 10); lia.
Qed.

Lemma map_to_chars_offsets_witness :
  map_to_chars (map (fun mj => fst mj * 20 + snd mj) [(72, 1); (73, 12); (74, 10)])
  = Ok [72; 74; 74].
Proof.
  apply (map_to_chars_offsets [(72, 1); (73, 12); (74, 10)]).
  repeat constructor; cbn; lia.
Defined.

(** ** The choice of the base point *)

Lemma get_eg_g_loop_inv (ec : EC.t) (ks : list Z) (g : Coord) :
  get_eg_g_loop ec ks = Some g ->
  exists i g' o, In i ks /\ EC.at_ ec i = Ok (g, g') /\ EC.order ec g = Ok o.
Proof.
  induction ks as [|i ks IH]; cbn [get_eg_g_loop]; [discriminate|].
  destruct (EC.at_ ec i) as [[p p']|] eqn:Eat; cbn [bind].
  - destruct (EC.order ec p) as [o|] eqn:Eo; cbn [bind].
    + destruct (o <=? EC.q ec); cbn [assert bind].
      * intros E. inversion E. subst p. exists i, p', o. repeat split; trivial. now left.
      * intros E. destruct (IH E) as [i' [g' [o' [Hin H]]]].
        exists i', g', o'. split; [now right | exact H].
    + intros E. destruct (IH E) as [i' [g' [o' [Hin H]]]].
      exists i', g', o'. split; [now right | exact H].
  - intros E. destruct (IH E) as [i' [g' [o' [Hin H]]]].
    exists i', g', o'. split; [now right | exact H].
Qed.

Lemma get_eg_g_loop_none (ec : EC.t) (ks : list Z) :
  constructed ec ->
  (get_eg_g_loop ec ks = None
   <-> forall i, In i ks -> forall p p', EC.at_ ec i = Ok (p, p') ->
         EC.order ec p = Raise (Exception "Invalid order")).
Proof.
  intros Hc. pose proof (q_gt_2 ec Hc) as Hq.
  induction ks as [|i ks IH]; cbn [get_eg_g_loop].
  - split; [intros _ i [] | reflexivity].
  - destruct (EC.at_ ec i) as [[p p']|] eqn:Eat; cbn [bind].
    + destruct (at_inv ec i p p' Hc Eat) as [_ [u [Hu [Ep [_ [V _]]]]]].
      assert (Hnz : Coord_eqb p (EC.zero ec) = false).
      { destruct (Coord_eqb_spec p (EC.zero ec)) as [E0|]; trivial.
        rewrite Ep in E0. inversion E0. lia. }
      assert (Ho : EC.order ec p = EC.order_loop ec p (range 1 (EC.q ec + 1))).
      { unfold EC.order. rewrite is_valid_ok by lia. cbn [bind].
        now rewrite V, Hnz. }
      destruct (EC.order ec p) as [o|e] eqn:Eo; cbn [bind].
      * assert (Hle : o <= EC.q ec).
        { destruct (order_inv ec Hc p o Eo) as [_ [_ [H _]]]. lia. }
        destruct (Z.leb_spec o (EC.q ec)); [|lia]. cbn [assert bind].
        split; [discriminate|]. intros HN.
        specialize (HN i (or_introl eq_refl) p p' Eat). congruence.
      * destruct (order_loop_cases ec p (range 1 (EC.q ec + 1)) ltac:(lia))
          as [[n En]|En]; rewrite <- Ho in En; [discriminate|].
        rewrite IH. split.
        -- intros H j [<-|Hj] r r' Er.
           ++ rewrite Eat in Er. inversion Er. subst r. now rewrite Eo.
           ++ now apply (H j Hj r r').
        -- intros H j Hj. apply H. now right.
    + rewrite IH. split.
      * intros H j [<-|Hj] r r' Er; [congruence|]. now apply (H j Hj r r').
      * intros H j Hj. apply H. now right.
Qed.

(** X20. [get_eg_g] returns a point on which the cipher can be built: a valid
    point of the data model, not the identity, whose order [EC.order]
    finds; [ElGamal.__init__] does not fail on it.  It returns [None]
    exactly when [EC.order] finds no order for the first point of any
    abscissa of [[0, q)]. *)
Theorem get_eg_g_spec (a b q : Z) (ec : EC.t) :
  EC.init a b q = Ok ec ->
  (forall g, get_eg_g q ec = Some g ->
     curve_point ec g /\ g <> EC.zero ec
     /\ exists eg, ElGamal.init ec g = Ok eg /\ 1 <= ElGamal.n eg <= q)
  /\ (get_eg_g q ec = None
      <-> forall i, 0 <= i < q -> forall p p', EC.at_ ec i = Ok (p, p') ->
            EC.order ec p = Raise (Exception "Invalid order")).
Proof.
  intros Hec. apply init_constructed in Hec. destruct Hec as [Eec Hc].
  assert (Eq : EC.q ec = q) by (now rewrite Eec).
  pose proof (q_gt_2 ec Hc) as Hq.
  split.
  - intros g Hg. apply get_eg_g_loop_inv in Hg.
    destruct Hg as [i [g' [o [Hin [Eat Eo]]]]]. apply in_range in Hin.
    destruct (at_pt ec i g g' Hc ltac:(lia) Eat) as [Hpt [_ Hnz]].
    split; [now apply (curve_point_pt ec Hc)|]. split; [exact Hnz|].
    exists (ElGamal.mk ec g o). split.
    + apply elgamal_init_ok; trivial. rewrite is_valid_ok by lia.
      f_equal. apply Hpt.
    + cbn [ElGamal.n]. destruct (order_inv ec Hc g o Eo) as [_ [_ [H _]]]. lia.
  - unfold get_eg_g. rewrite (get_eg_g_loop_none ec _ Hc). split.
    + intros H i Hi. apply H. apply in_range. lia.
    + intros H i Hi. apply H. apply in_range in Hi. lia.
Qed.

Lemma get_eg_g_spec_witness :
  let ec := EC.mk 1 1 7 in
  let g := mkCoord 0 1 in
  get_eg_g 7 ec = Some g
  /\ curve_point ec g /\ g <> EC.zero ec
  /\ exists eg, ElGamal.init ec g = Ok eg /\ 1 <= ElGamal.n eg <= 7.
Proof.
  split; [reflexivity|].
  apply (proj1 (get_eg_g_spec 1 1 7 (EC.mk 1 1 7) eq_refl)).
  reflexivity.
Defined.

(** ** The "validate" button *)

(** X21. [validate_coffs] never reports bad coefficients for positive [a] and
    [q]: the sum of [4 * a ** 3] and a remainder modulo [q] is positive,
    whatever the discriminant is. *)
Theorem validate_coffs_accepts (a b q : Z) :
  0 < a -> 0 < q -> validate_coffs a b q = Ok (inr "all right"%string).
Proof.
  intros Ha Hq. unfold validate_coffs. rewrite pymod_ok by lia. cbn [bind].
  pose proof (Z.mod_pos_bound (27 * b ^ 2) q Hq) as Hr.
  assert (H3 : 0 < a ^ 3) by (apply Z.pow_pos_nonneg; lia).
  destruct (Z.eqb_spec (4 * a ^ 3 + (27 * b ^ 2) mod q) 0); [lia | reflexivity].
Qed.

Lemma validate_coffs_accepts_witness :
  is_valid_eg 4 2 7 = Ok false
  /\ validate_coffs 4 2 7 = Ok (inr "all right"%string).
Proof.
  split; [reflexivity | apply (validate_coffs_accepts 4 2 7); lia].
Defined.

(** ** The two commands end to end *)

Lemma prime_check_sound (p : Z) : prime_check p = true -> Z.prime p.
Proof.
  unfold prime_check. intros H. apply andb_true_iff in H. destruct H as [H1 H2].
  apply Z.ltb_lt in H1. split; [exact H1|].
  intros n Hn D. rewrite forallb_forall in H2.
  specialize (H2 n (proj2 (in_range 2 p n) ltac:(lia))).
  apply negb_true_iff, Z.eqb_neq in H2. apply H2.
  apply Z.mod_divide; [lia | exact D].
Qed.


Lemma prime_223 : Z.prime 223.
Proof. apply prime_check_sound. vm_compute. reflexivity. Qed.

Lemma build_cipher_inv (a b q : Z) (eg : ElGamal.t) :
  build_cipher a b q = Ok eg ->
  exists ec g,
    EC.init a b q = Ok ec /\ nonsingular ec
    /\ get_eg_g q ec = Some g /\ ElGamal.init ec g = Ok eg.
Proof.
  unfold build_cipher, is_valid_eg.
  destruct (Z.eq_dec q 0) as [->|Hq]; [discriminate|].
  rewrite pymod_ok by assumption. cbn [bind].
  destruct (Z.eqb_spec ((4 * a ^ 3 + 27 * b ^ 2) mod q) 0) as [|Hd];
    cbn [negb]; [discriminate|].
  destruct (EC.init a b q) as [ec|] eqn:Eec; cbn [bind]; [|discriminate].
  destruct (get_eg_g q ec) as [g|] eqn:Eg; [|discriminate].
  intros Heg. exists ec, g. repeat split; trivial.
  apply init_constructed in Eec. destruct Eec as [-> _]. exact Hd.
Qed.

Section Pipeline.
Variable ec : EC.t.
Hypothesis Hc : constructed ec.
Hypothesis Hp : Z.prime (EC.q ec).
Variable eg : ElGamal.t.
Hypothesis Eec : ElGamal.ec eg = ec.
Hypothesis Hg : pt ec (ElGamal.g eg).

(** The points of the Koblitz encoding are valid points of the data
    model. *)
Lemma koblitz_pt (m : Z) (p : Coord) :
  map_to_point_koblitz m ec = Some p -> pt ec p.
Proof.
  pose proof (q_gt_2 ec Hc) as Hq. intros E.
  destruct (map_to_point_koblitz_spec m ec ltac:(lia))
    as [[j [p0 [p' [_ [Eat [_ E']]]]]]|[_ E']]; rewrite E' in E; [|discriminate].
  inversion E. subst p0.
  apply (at_pt ec ((m * max_bits + j) mod EC.q ec) p p' Hc);
    [apply Z.mod_pos_bound; lia | exact Eat].
Qed.


(** [enc2] does not fail on a valid point under a valid key. *)
Lemma enc2_ok (p pub : Coord) (r : Z) :
  pt ec p -> pt ec pub ->
  exists c, ElGamal.enc2 eg p pub r = Ok c.
Proof.
  pose proof (q_gt_2 ec Hc) as Hq. intros H1 H2.
  unfold ElGamal.enc2. rewrite Eec. rewrite !is_valid_ok by lia.
  rewrite (proj2 H1), (proj2 H2). cbn [bind assert].
  rewrite !(mul_value ec Hc Hp) by assumption. cbn [bind].
  rewrite add_ok by lia. cbn [bind]. eauto.
Qed.

(** As soon as one character has no point the encryption of the
    message runs into [None]. *)
Lemma encrypt_points2_none (message : str) (pub : Coord) (r c : Z) :
  pt ec pub -> In c message -> map_to_point_koblitz c ec = None ->
  encrypt_points2 (map_to_points_koblitz message ec) eg pub r
  = Raise AttributeError.
Proof.
  intros Hpub. induction message as [|c0 rest IH]; intros Hin Hnone; [destruct Hin|].
  cbn [map_to_points_koblitz map encrypt_points2].
  destruct (map_to_point_koblitz c0 ec) as [p|] eqn:E0; [|reflexivity].
  destruct Hin as [->|Hin]; [congruence|].
  destruct (enc2_ok p pub r (koblitz_pt c0 p E0) Hpub) as [c' ->]. cbn [bind].
  fold (map_to_points_koblitz rest ec). now rewrite IH.
Qed.

Hypothesis Hns : nonsingular ec.


End Pipeline.





(** X23. A character without a point in its Koblitz window makes
    [encrypt_message] raise [AttributeError]: the [None] of the encoding
    reaches [enc2]. *)
Theorem encrypt_message_unencodable (a b q priv rand : Z) (eg : ElGamal.t)
    (message : str) (c : Z) :
  Z.prime q -> build_cipher a b q = Ok eg ->
  In c message -> map_to_point_koblitz c (ElGamal.ec eg) = None ->
  encrypt_message a b q priv rand message = Raise AttributeError.
Proof.
  intros Hp Hb Hin Hnone.
  destruct (build_cipher_inv a b q eg Hb) as [ec [g [Hec [Hns [Hget Heg]]]]].
  destruct (init_prime a b q ec Hec Hp) as [Eec' [Hc [Hpq Hq]]].
  destruct (elgamal_init_inv ec g eg Heg) as [Eec [Eg _]].
  assert (Hg : pt ec (ElGamal.g eg)).
  { rewrite Eg. apply get_eg_g_loop_inv in Hget.
    destruct Hget as [i [g' [o [Hi [Eat _]]]]]. apply in_range in Hi.
    now destruct (at_pt ec i g g' Hc ltac:(lia) Eat). }
  unfold encrypt_message. rewrite Hb. cbn [bind].
  unfold ElGamal.gen. rewrite Eec, (mul_value ec Hc Hpq) by assumption. cbn [bind].
  rewrite Eec in Hnone.
  apply (encrypt_points2_none ec Hc Hpq eg Eec Hg message _ rand c); trivial.
  now apply pt_nsmul_any.
Qed.

Lemma encrypt_message_unencodable_witness :
  encrypt_message 66 185 223 5 15 [72; 96] = Raise AttributeError.
Proof.
  apply (encrypt_message_unencodable 66 185 223 5 15
           (ElGamal.mk (EC.mk 66 185 223) (mkCoord 1 67) 5) [72; 96] 96).
  - exact prime_223.
  - vm_compute. reflexivity.
  - cbn. tauto.
  - vm_compute. reflexivity.
Defined.

(** ** No exception on a constructed curve *)

(** X24. On a constructed curve [is_valid], [neg], [add] and [mul] never
    raise, whatever the points (valid or not) and the scalar; the
    coordinates [neg] and [add] compute are reduced modulo [q]. *)
Theorem ec_never_raises (a b q : Z) (ec : EC.t) (p1 p2 : Coord) (k : Z) :
  EC.init a b q = Ok ec ->
  (exists v, EC.is_valid ec p1 = Ok v)
  /\ (exists n, EC.neg ec p1 = Ok n /\ x n = x p1 /\ 0 <= y n < q)
  /\ (exists s, EC.add ec p1 p2 = Ok s
                /\ (reduced ec p1 -> reduced ec p2 -> reduced ec s))
  /\ (exists m, EC.mul ec p1 k = Ok m).
Proof.
  intros Hec. apply init_constructed in Hec. destruct Hec as [Eec Hc].
  assert (Eq : EC.q ec = q) by (now rewrite Eec).
  pose proof (q_gt_2 ec Hc) as Hq. rewrite <- Eq.
  split; [exists (valid ec p1); apply is_valid_ok; lia|].
  split.
  - exists (pneg ec p1). rewrite neg_ok by lia.
    split; [reflexivity|]. split; [reflexivity|].
    cbn [pneg x y]. apply Z.mod_pos_bound. lia.
  - split; [|apply mul_total; lia].
    exists (padd ec p1 p2). rewrite add_ok by lia. split; [reflexivity|].
    now apply padd_reduced.
Qed.

Lemma ec_never_raises_witness :
  let ec := EC.mk 1 1 7 in
  let p1 := mkCoord 3 3 in
  let p2 := mkCoord 10 (-4) in
  (exists v, EC.is_valid ec p1 = Ok v)
  /\ (exists n, EC.neg ec p1 = Ok n /\ x n = x p1 /\ 0 <= y n < 7)
  /\ (exists s, EC.add ec p1 p2 = Ok s
                /\ (reduced ec p1 -> reduced ec p2 -> reduced ec s))
  /\ (exists m, EC.mul ec p1 9 = Ok m).
Proof.
  apply (ec_never_raises 1 1 7 (EC.mk 1 1 7) (mkCoord 3 3) (mkCoord 10 (-4)) 9).
  reflexivity.
Defined.

(** ** Negation against addition and multiples *)

Section Opposites.
Variable ec : EC.t.
Hypothesis Hc : constructed ec.
Hypothesis Hp : Z.prime (EC.q ec).

Lemma pneg_zero : pneg ec (EC.zero ec) = EC.zero ec.
Proof.
  pose proof (q_gt_2 ec Hc). unfold pneg, EC.zero. cbn [x y].
  now rewrite Z.mod_0_l by lia.
Qed.

(** The opposite of a sum of regular points is the sum of the
    opposites. *)
Lemma pneg_padd (p1 p2 : Coord) :
  regular_point ec p1 -> regular_point ec p2 ->
  pneg ec (padd ec p1 p2) = padd ec (pneg ec p1) (pneg ec p2).
Proof.
  intros R1 R2.
  pose proof (regular_point_pneg ec Hc p1 R1) as N1.
  pose proof (regular_point_pneg ec Hc p2 R2) as N2.
  pose proof (regular_point_padd ec Hc Hp p1 p2 R1 R2) as RS.
  pose proof (regular_point_padd ec Hc Hp _ _ N1 N2) as RT.
  pose proof (regular_point_pneg ec Hc _ RS) as NS.
  set (s := padd ec p1 p2) in *. set (t := padd ec (pneg ec p1) (pneg ec p2)) in *.
  assert (Hst : padd ec s t = EC.zero ec).
  { unfold s, t.
    rewrite (padd_comm ec Hc Hp (pneg ec p1) (pneg ec p2)) by (apply N1 || apply N2).
    rewrite (padd_assoc ec Hc Hp p1 p2) by (trivial; now apply regular_point_padd).
    rewrite <- (padd_assoc ec Hc Hp p2 (pneg ec p2) (pneg ec p1)) by trivial.
    rewrite (padd_pneg ec Hc Hp p2) by apply R2.
    rewrite padd_zero_l. apply (padd_pneg ec Hc Hp). apply R1. }
  assert (E : padd ec (pneg ec s) (padd ec s t) = t).
  { rewrite <- (padd_assoc ec Hc Hp) by trivial.
    rewrite (padd_comm ec Hc Hp (pneg ec s) s) by (apply NS || apply RS).
    rewrite (padd_pneg ec Hc Hp s) by apply RS. apply padd_zero_l. }
  rewrite Hst, padd_zero_r in E. exact E.
Qed.

Lemma nsmul_pneg (p : Coord) (k : nat) :
  pt ec p -> nsmul ec (pneg ec p) k = pneg ec (nsmul ec p k).
Proof.
  intros Hpt. destruct (regular_at_dec ec p) as [Hr|Hs].
  - assert (R : regular_point ec p) by (now split).
    induction k as [|k IH]; cbn [nsmul]; [now rewrite pneg_zero|].
    rewrite IH. symmetry. apply pneg_padd; trivial.
    apply (G_nsmul ec (regular_point ec)); trivial.
    + now apply regular_point_zero.
    + now apply regular_point_padd.
  - destruct (singular_double ec Hc p Hs) as [Hnz Hdbl].
    assert (Hy : y p = 0).
    { destruct (Z.eq_dec (y p) 0) as [|N]; trivial. exfalso. apply Hs. now left. }
    assert (En : pneg ec p = p).
    { pose proof (q_gt_2 ec Hc). unfold pneg. rewrite Hy.
      rewrite Z.mod_0_l by lia. destruct p. cbn in *. now subst. }
    rewrite En.
    assert (Hk : nsmul ec p k = EC.zero ec \/ nsmul ec p k = p).
    { induction k as [|k IH]; cbn [nsmul]; [now left|].
      destruct IH as [-> | ->]; rewrite ?padd_zero_l, ?Hdbl; auto. }
    destruct Hk as [-> | ->]; [now rewrite pneg_zero | now rewrite En].
Qed.

End Opposites.

(** X25. Negation commutes with scalar multiplication: the multiple of the
    opposite point is the opposite of the multiple. *)
Theorem mul_neg (a b q : Z) (ec : EC.t) (p : Coord) (k : Z) :
  EC.init a b q = Ok ec -> Z.prime q -> curve_point ec p ->
  exists m,
    (n <- EC.neg ec p ;; EC.mul ec n k) = Ok m
    /\ (s <- EC.mul ec p k ;; EC.neg ec s) = Ok m.
Proof.
  intros Hec Hp Hpt.
  destruct (init_prime a b q ec Hec Hp) as [_ [Hc [Hpq Hq]]].
  apply (curve_point_pt ec Hc) in Hpt.
  exists (pneg ec (nsmul ec p (Z.to_nat k))).
  rewrite neg_ok by lia. cbn [bind].
  rewrite (mul_value ec Hc Hpq) by (now apply pt_pneg).
  rewrite (mul_value ec Hc Hpq) by assumption. cbn [bind].
  rewrite neg_ok by lia. split; [|reflexivity].
  f_equal. now apply nsmul_pneg.
Qed.

Lemma mul_neg_witness :
  let ec := EC.mk 1 1 7 in
  exists m,
    (n <- EC.neg ec (mkCoord 0 1) ;; EC.mul ec n 3) = Ok m
    /\ (s <- EC.mul ec (mkCoord 0 1) 3 ;; EC.neg ec s) = Ok m.
Proof.
  apply (mul_neg 1 1 7 (EC.mk 1 1 7) (mkCoord 0 1) 3).
  - reflexivity.
  - exact prime_7.
  - split; [unfold reduced; cbn; lia | reflexivity].
Defined.

(** ** Private keys modulo the order *)

(** X26. Private keys that agree modulo [n] are interchangeable: what is
    encrypted for the public key of [priv] is decrypted by every
    [priv'] with the same remainder modulo the order of the base
    point. *)
Theorem equivalent_keys (a b q : Z) (ec : EC.t) (g : Coord) (eg : ElGamal.t)
    (p : Coord) (priv priv' r : Z) :
  EC.init a b q = Ok ec -> Z.prime q -> nonsingular ec ->
  curve_point ec g -> ElGamal.init ec g = Ok eg -> curve_point ec p ->
  0 <= priv -> 0 <= priv' -> priv mod ElGamal.n eg = priv' mod ElGamal.n eg ->
  0 <= r ->
  (pub <- ElGamal.gen eg priv ;;
   c <- ElGamal.enc2 eg p pub r ;;
   ElGamal.dec eg c priv') = Ok p.
Proof.
  intros Hec Hp Hns Hg Heg Hpt Hpriv Hpriv' Hmod Hr.
  destruct (init_prime a b q ec Hec Hp) as [_ [Hc [Hpq Hq]]].
  apply (curve_point_pt ec Hc) in Hg, Hpt.
  apply elgamal_init_inv in Heg. destruct Heg as [Eec [Eg [_ Hord]]].
  set (pub := nsmul ec g (Z.to_nat priv)).
  set (c1 := nsmul ec g (Z.to_nat r)).
  set (m := nsmul ec pub (Z.to_nat r)).
  assert (Hpub : pt ec pub) by (now apply pt_nsmul_any).
  assert (Hc1 : pt ec c1) by (now apply pt_nsmul_any).
  assert (Hm : pt ec m) by (now apply pt_nsmul_any).
  assert (Hc2 : pt ec (padd ec p m)) by (now apply pt_padd).
  assert (Hkey : nsmul ec c1 (Z.to_nat priv') = m).
  { unfold c1, m, pub.
    rewrite !(nsmul_mul_pt ec Hc Hpq) by assumption.
    rewrite (Nat.mul_comm (Z.to_nat r)).
    rewrite <- !(nsmul_mul_pt ec Hc Hpq) by assumption. f_equal.
    rewrite (nsmul_mod_order ec Hc Hpq g _ priv' Hg Hord Hpriv').
    rewrite (nsmul_mod_order ec Hc Hpq g _ priv Hg Hord Hpriv).
    now rewrite Hmod. }
  unfold ElGamal.gen, ElGamal.enc2, ElGamal.dec. rewrite Eec, Eg.
  rewrite (mul_value ec Hc Hpq) by assumption. fold pub. cbn [bind].
  rewrite !is_valid_ok by lia.
  rewrite (proj2 Hpt), (proj2 Hpub). cbn [bind assert].
  rewrite !(mul_value ec Hc Hpq) by assumption. fold c1. fold m. cbn [bind].
  rewrite add_ok by lia. cbn [bind].
  rewrite !is_valid_ok by lia.
  rewrite (proj2 Hc1), (proj2 Hc2). cbn [bind assert].
  rewrite (mul_value ec Hc Hpq) by assumption. cbn [bind].
  rewrite neg_ok by lia. cbn [bind].
  rewrite add_ok by lia. f_equal. rewrite Hkey.
  now apply mask_unmask.
Qed.

Lemma equivalent_keys_witness :
  let ec := EC.mk 1 1 7 in
  let eg := ElGamal.mk ec (mkCoord 0 1) 5 in
  (pub <- ElGamal.gen eg 2 ;;
   c <- ElGamal.enc2 eg (mkCoord 2 2) pub 3 ;;
   ElGamal.dec eg c 12) = Ok (mkCoord 2 2).
Proof.
  apply (equivalent_keys 1 1 7 (EC.mk 1 1 7) (mkCoord 0 1)
           (ElGamal.mk (EC.mk 1 1 7) (mkCoord 0 1) 5) (mkCoord 2 2) 2 12 3).
  - reflexivity.
  - exact prime_7.
  - unfold nonsingular. cbn. discriminate.
  - split; [unfold reduced; cbn; lia | reflexivity].
  - reflexivity.
  - split; [unfold reduced; cbn; lia | reflexivity].
  - lia.
  - lia.
  - reflexivity.
  - lia.
Defined.

(** ** The masking-only encryption of a message *)

(** X27. [encrypt_points] returns the second components of what
    [encrypt_points2] returns, and fails when it does. *)
Theorem encrypt_points_second (a b q : Z) (ec : EC.t) (g : Coord)
    (eg : ElGamal.t) (points : list (option Coord)) (pub : Coord) (rand : Z) :
  EC.init a b q = Ok ec -> ElGamal.init ec g = Ok eg ->
  encrypt_points points eg pub rand
  = (cs <- encrypt_points2 points eg pub rand ;; Ok (map snd cs)).
Proof.
  intros Hec Heg. apply init_constructed in Hec. destruct Hec as [_ Hc].
  pose proof (q_gt_2 ec Hc) as Hq.
  apply elgamal_init_inv in Heg. destruct Heg as [Eec _].
  induction points as [|[p|] rest IH]; cbn [encrypt_points encrypt_points2];
    [reflexivity | | reflexivity].
  rewrite IH. unfold ElGamal.enc, ElGamal.enc2. rewrite Eec.
  rewrite !is_valid_ok by lia. cbn [bind].
  destruct (valid ec p); cbn [assert bind]; [|reflexivity].
  destruct (valid ec pub); cbn [assert bind]; [|reflexivity].
  destruct (mul_total ec (ElGamal.g eg) rand ltac:(lia)) as [c1 ->].
  destruct (mul_total ec pub rand ltac:(lia)) as [m ->]. cbn [bind].
  rewrite add_ok by lia. cbn [bind].
  destruct (encrypt_points2 rest eg pub rand); reflexivity.
Qed.

Lemma encrypt_points_second_witness :
  let ec := EC.mk 1 1 7 in
  let eg := ElGamal.mk ec (mkCoord 0 1) 5 in
  let points := [Some (mkCoord 2 2); Some (mkCoord 0 6)] in
  encrypt_points points eg (mkCoord 2 5) 3
  = (cs <- encrypt_points2 points eg (mkCoord 2 5) 3 ;; Ok (map snd cs)).
Proof.
  apply (encrypt_points_second 1 1 7 (EC.mk 1 1 7) (mkCoord 0 1)
           (ElGamal.mk (EC.mk 1 1 7) (mkCoord 0 1) 5)
           [Some (mkCoord 2 2); Some (mkCoord 0 6)] (mkCoord 2 5) 3);
    reflexivity.
Defined.

(** ** The cipher both commands build *)

(** X28. The outcomes of the common prologue of [encrypt_message] and
    [decrypt_message], in the order of its checks (an error box followed
    by the early [return None] is the [Exception] outcome carrying the
    text of the box): a zero modulus fails in the discriminant test; a
    zero discriminant stops with "EC is singular!"; parameters out of
    range fail the assertion of [EC.__init__]; a curve without a usable
    base point stops with "EC is bad!"; otherwise the cipher is built on
    the point [get_eg_g] returns and [ElGamal.__init__] does not fail. *)
Theorem build_cipher_outcomes (a b q : Z) :
  (q = 0 -> build_cipher a b q = Raise ZeroDivisionError)
  /\ (q <> 0 -> (4 * a ^ 3 + 27 * b ^ 2) mod q = 0 ->
      build_cipher a b q = Raise (Exception "EC is singular!"))
  /\ (q <> 0 -> (4 * a ^ 3 + 27 * b ^ 2) mod q <> 0 ->
      ~ (0 < a < q /\ 0 < b < q /\ 2 < q) ->
      build_cipher a b q = Raise AssertionError)
  /\ (q <> 0 -> (4 * a ^ 3 + 27 * b ^ 2) mod q <> 0 ->
      0 < a < q /\ 0 < b < q /\ 2 < q ->
      match get_eg_g q (EC.mk a b q) with
      | None => build_cipher a b q = Raise (Exception "EC is bad!")
      | Some g =>
          exists n, build_cipher a b q = Ok (ElGamal.mk (EC.mk a b q) g n)
                    /\ EC.order (EC.mk a b q) g = Ok n /\ 1 <= n <= q
      end).
Proof.
  unfold build_cipher, is_valid_eg. repeat split.
  - intros ->. reflexivity.
  - intros Hq Hd. rewrite pymod_ok by assumption. cbn [bind]. now rewrite Hd.
  - intros Hq Hd Hr. rewrite pymod_ok by assumption. cbn [bind].
    destruct (Z.eqb_spec ((4 * a ^ 3 + 27 * b ^ 2) mod q) 0); [contradiction|].
    cbn [negb]. unfold EC.init.
    destruct (Z.ltb_spec 0 a), (Z.ltb_spec a q), (Z.ltb_spec 0 b),
      (Z.ltb_spec b q), (Z.gtb_spec q 2); cbn; trivial; lia.
  - intros Hq Hd Hr. rewrite pymod_ok by assumption. cbn [bind].
    destruct (Z.eqb_spec ((4 * a ^ 3 + 27 * b ^ 2) mod q) 0); [contradiction|].
    cbn [negb].
    assert (Hc : constructed (EC.mk a b q)) by exact Hr.
    pose proof (constructed_init (EC.mk a b q) Hc) as Ei. cbn [EC.a EC.b EC.q] in Ei.
    rewrite Ei. cbn [bind].
    destruct (get_eg_g q (EC.mk a b q)) as [g|] eqn:Eg; [|reflexivity].
    apply get_eg_g_loop_inv in Eg. destruct Eg as [i [g' [o [Hin [Eat Eo]]]]].
    apply in_range in Hin.
    destruct (at_pt _ i g g' Hc ltac:(lia) Eat) as [Hpt _].
    destruct (order_inv _ Hc g o Eo) as [Hv [_ [Ho _]]].
    exists o. split; [now apply elgamal_init_ok|]. split; [exact Eo | exact Ho].
Qed.
